(** * Identity reconciliation: the [/identify] service

    A shallow embedding of [src/services/contactService.ts]
    ([identifyContact], [buildResponse]) and of the route handler that
    calls it, over an explicit model of the [Contact] table that the
    Prisma client reads and writes. *)

From Stdlib Require Import String ZArith List Bool Lia Permutation.
Import ListNotations.
Open Scope Z_scope.

(** ** The [Contact] table *)

(** Modelled from the spec: the [Contact] model of the Prisma schema, which
    is not among the sources.  The fields are those section 3 of the
    specification lists and the service reads and writes; [linkPrecedence]
    takes the two values the service writes. *)
Inductive LinkPrecedence : Type := primary | secondary.

Definition LinkPrecedence_eqb (a b : LinkPrecedence) : bool :=
  match a, b with
  | primary, primary | secondary, secondary => true
  | _, _ => false
  end.

(** Modelled from the spec: one row of the table.  Timestamps are integers
    (milliseconds); [None] is SQL [NULL] / JavaScript [null]. *)
Record Contact : Type := mkContact {
  id : Z;
  phoneNumber : option string;
  email : option string;
  linkedId : option Z;
  linkPrecedence : LinkPrecedence;
  createdAt : Z;
  updatedAt : Z;
  deletedAt : option Z
}.

(** ** JavaScript values *)

(** Truthiness of a [string | null]: [null] and the empty string are
    falsy. *)
Definition truthy_str (o : option string) : bool :=
  match o with
  | Some s => negb (String.eqb s EmptyString)
  | None => false
  end.

(** Truthiness of a [number | null]: [null] and [0] are falsy. *)
Definition truthy_num (o : option Z) : bool :=
  match o with
  | Some z => negb (z =? 0)
  | None => false
  end.

Definition is_null {A : Type} (o : option A) : bool :=
  match o with
  | Some _ => false
  | None => true
  end.

(** A column compared with a given value in a [where] clause: a [NULL]
    column equals nothing. *)
Definition col_str_is (col : option string) (v : string) : bool :=
  match col with
  | Some s => String.eqb s v
  | None => false
  end.

Definition col_num_is (col : option Z) (v : Z) : bool :=
  match col with
  | Some z => z =? v
  | None => false
  end.

(** [Array.prototype.includes] and [Set.prototype.has]. *)
Definition includes_str (l : list string) (v : string) : bool :=
  existsb (String.eqb v) l.

Definition includes_num (l : list Z) (v : Z) : bool :=
  existsb (Z.eqb v) l.

(** A JavaScript [Set] keeps its elements in insertion order, once each. *)
Definition set_add_num (s : list Z) (v : Z) : list Z :=
  if includes_num s v then s else s ++ [v].

Definition set_add_str (s : list string) (v : string) : list string :=
  if includes_str s v then s else s ++ [v].

Definition set_of_strs (l : list string) : list string :=
  fold_left set_add_str l [].

(** [xs.map(f).filter(Boolean) as string[]] over an optional string
    column. *)
Definition truthy_values (f : Contact -> option string) (l : list Contact)
  : list string :=
  flat_map (fun c => match f c with
                     | Some s => if truthy_str (Some s) then [s] else []
                     | None => []
                     end) l.

(** ** The database and the Prisma client *)

Inductive StoreCall : Type := FindMany | Create | Update | UpdateMany.

(** [rows] lists the table in the order in which the database (PostgreSQL,
    behind Prisma) returns rows for a query without [orderBy]: the order
    in which the current versions of the rows were written, which is not
    the order of the ids once a row has been updated.  [nextId] is the
    autoincrement sequence, [clock] the time stamped on writes (time
    passes between requests; no property below depends on the time a
    request takes), [calls] the round trips performed so far, and
    [outage = Some k] makes the round trip attempted after [k] performed
    ones fail (the first failure is the only one a request sees).
    [tieRank] is the database's choice among rows that an ordered fetch
    cannot tell apart: the service orders by [createdAt] alone, so rows
    with equal [createdAt] come back in an order the code does not fix.
    Every such order is that of some [tieRank] (rank each row by its place
    in it: [orderByCreatedAt_any_ties]); the properties below hold for
    all of them. *)
Record Db : Type := mkDb {
  rows : list Contact;
  nextId : Z;
  clock : Z;
  calls : list StoreCall;
  outage : option nat;
  tieRank : Contact -> Z
}.

Definition with_rows (d : Db) (r : list Contact) : Db :=
  mkDb r (nextId d) (clock d) (calls d) (outage d) (tieRank d).

Definition logged (c : StoreCall) (d : Db) : Db :=
  mkDb (rows d) (nextId d) (clock d) (calls d ++ [c]) (outage d) (tieRank d).

Inductive Exn : Type := StoreError | TypeError.

Inductive Outcome (A : Type) : Type :=
| Ok (a : A)
| Throw (e : Exn).
Arguments Ok {A} a.
Arguments Throw {A} e.

(** An [async] computation over the database: it either returns or
    throws, and leaves the database as its completed writes made it. *)
Definition Prisma (A : Type) : Type := Db -> Outcome A * Db.

Definition ret {A : Type} (a : A) : Prisma A := fun d => (Ok a, d).

Definition throw {A : Type} (e : Exn) : Prisma A := fun d => (Throw e, d).

Definition bind {A B : Type} (m : Prisma A) (k : A -> Prisma B) : Prisma B :=
  fun d => match m d with
           | (Ok a, d') => k a d'
           | (Throw e, d') => (Throw e, d')
           end.

Notation "x <- m ;; k" := (bind m (fun x => k))
  (at level 61, m at next level, right associativity).
Notation "m ;;; k" := (bind m (fun _ => k))
  (at level 61, right associativity).

(** One round trip to the database. *)
Definition roundtrip (c : StoreCall) : Prisma unit :=
  fun d => match outage d with
           | Some k => if Nat.eqb k (length (calls d))
                       then (Throw StoreError, d)
                       else (Ok tt, logged c d)
           | None => (Ok tt, logged c d)
           end.

(** [orderBy: { createdAt: "asc" }]: the rows sorted on [createdAt], the
    only key the source gives.  Among rows with equal [createdAt] the
    order is the database's: [rank] stands for it (and rows it does not
    tell apart either keep the order they were read in). *)
Definition fetchedBefore (rank : Contact -> Z) (c x : Contact) : bool :=
  (createdAt c <? createdAt x)
  || ((createdAt c =? createdAt x) && (rank c <=? rank x)).

Fixpoint insertByCreatedAt (rank : Contact -> Z) (c : Contact)
  (l : list Contact) : list Contact :=
  match l with
  | [] => [c]
  | x :: xs => if fetchedBefore rank c x then c :: l
               else x :: insertByCreatedAt rank c xs
  end.

Definition orderByCreatedAt (rank : Contact -> Z) (l : list Contact)
  : list Contact :=
  fold_right (insertByCreatedAt rank) [] l.

Definition findMany (where_ : Contact -> bool) : Prisma (list Contact) :=
  roundtrip FindMany ;;;
  fun d => (Ok (filter where_ (rows d)), d).

Definition findManyOrderByCreatedAt (where_ : Contact -> bool)
  : Prisma (list Contact) :=
  roundtrip FindMany ;;;
  fun d => (Ok (orderByCreatedAt (tieRank d) (filter where_ (rows d))), d).

(** Modelled from the spec: the defaults of [create], which the schema
    declares.  The database assigns [id] from the sequence and stamps
    [createdAt] and [updatedAt]; [deletedAt] starts as [NULL]. *)
Definition create (e p : option string) (lp : LinkPrecedence)
  (l : option Z) : Prisma Contact :=
  roundtrip Create ;;;
  fun d => let c := mkContact (nextId d) p e l lp (clock d) (clock d) None in
           (Ok c, mkDb (rows d ++ [c]) (nextId d + 1) (clock d)
                       (calls d) (outage d) (tieRank d)).

(** The table after the rows selected by [where_] were written again with
    [data]: the database writes the new version of a row apart from the
    old one, so a later query without [orderBy] returns the rows that
    were left alone, in the order they had, and after them the rewritten
    rows. *)
Definition rewritten (where_ : Contact -> bool) (data : Contact -> Contact)
  (rs : list Contact) : list Contact :=
  filter (fun c => negb (where_ c)) rs ++ map data (filter where_ rs).

(** [update({ where: { id }, data })]; the service calls it on a record
    it has just fetched. *)
Definition update (i : Z) (data : Contact -> Contact) : Prisma unit :=
  roundtrip Update ;;;
  fun d => (Ok tt, with_rows d
      (rewritten (fun c => id c =? i) data (rows d))).

(** [updateMany({ where, data })]. *)
Definition updateMany (where_ : Contact -> bool) (data : Contact -> Contact)
  : Prisma unit :=
  roundtrip UpdateMany ;;;
  fun d => (Ok tt, with_rows d (rewritten where_ data (rows d))).

(** [new Date()]. *)
Definition newDate : Prisma Z := fun d => (Ok (clock d), d).

(** Reading [.id] off a value that may be [undefined]: a [TypeError]
    when it is. *)
Definition idOf (c : option Contact) : Prisma Z :=
  match c with
  | Some x => ret (id x)
  | None => throw TypeError
  end.

(** ** [contactService.ts] *)

Record ContactResponse : Type := mkResponse {
  primaryContatctId : Z;
  emails : list string;
  phoneNumbers : list string;
  secondaryContactIds : list Z
}.

(** The loop [for (const s of secondaries) if (v && !acc.includes(v))
    acc.push(v)] over one column. *)
Definition pushNew (f : Contact -> option string) (acc : list string)
  (s : Contact) : list string :=
  match f s with
  | Some v => if truthy_str (Some v) && negb (includes_str acc v)
              then acc ++ [v] else acc
  | None => acc
  end.

Definition collect (f : Contact -> option string) (p : Contact)
  (secondaries : list Contact) : list string :=
  fold_left (pushNew f)
    secondaries
    (match f p with
     | Some v => if truthy_str (Some v) then [v] else []
     | None => []
     end).

Definition buildResponse (p : Contact) (secondaries : list Contact)
  : ContactResponse :=
  mkResponse (id p) (collect email p secondaries)
    (collect phoneNumber p secondaries) (map id secondaries).

(** The [where] of step 1: not deleted, and one of the [OR] clauses
    holds; a falsy argument contributes no clause, and an empty [OR]
    matches no row. *)
Definition orClauses (e p : option string) : list (Contact -> bool) :=
  (match e with
   | Some v => if truthy_str e then [fun c => col_str_is (email c) v] else []
   | None => []
   end) ++
  (match p with
   | Some v => if truthy_str p
               then [fun c => col_str_is (phoneNumber c) v] else []
   | None => []
   end).

Definition matchWhere (e p : option string) (c : Contact) : bool :=
  is_null (deletedAt c) && existsb (fun cl => cl c) (orClauses e p).

(** Step 3: the [Set] of root ids. *)
Definition addRoot (s : list Z) (contact : Contact) : list Z :=
  match linkPrecedence contact with
  | primary => set_add_num s (id contact)
  | secondary =>
      match linkedId contact with
      | Some l => if truthy_num (Some l) then set_add_num s l else s
      | None => s
      end
  end.

Definition rootIds (matchingContacts : list Contact) : list Z :=
  fold_left addRoot matchingContacts [].

Definition rootWhere (ids : list Z) (c : Contact) : bool :=
  includes_num ids (id c) && is_null (deletedAt c).

Definition linkedWhere (i : Z) (c : Contact) : bool :=
  col_num_is (linkedId c) i && is_null (deletedAt c).

(** The two [data] objects of step 3b: the first sets [linkPrecedence],
    [linkedId] and [updatedAt], the second [linkedId] only. *)
Definition demote (tp : Z) (now : Z) (c : Contact) : Contact :=
  mkContact (id c) (phoneNumber c) (email c) (Some tp) secondary
    (createdAt c) now (deletedAt c).

Definition relink (tp : Z) (c : Contact) : Contact :=
  mkContact (id c) (phoneNumber c) (email c) (Some tp) (linkPrecedence c)
    (createdAt c) (updatedAt c) (deletedAt c).

(** The body of [for (const p of toMerge)]. *)
Fixpoint mergeLoop (truePrimary : option Contact) (toMerge : list Contact)
  : Prisma unit :=
  match toMerge with
  | [] => ret tt
  | p :: rest =>
      tp <- idOf truePrimary ;;
      now <- newDate ;;
      update (id p) (demote tp now) ;;;
      tp' <- idOf truePrimary ;;
      updateMany (linkedWhere (id p)) (relink tp') ;;;
      mergeLoop truePrimary rest
  end.

(** [email && !allEmails.has(email)]. *)
Definition isNew (v : option string) (all : list string) : bool :=
  match v with
  | Some s => truthy_str v && negb (includes_str all s)
  | None => false
  end.

Definition identifyContact (email_ phoneNumber_ : option string)
  : Prisma ContactResponse :=
  matchingContacts <- findMany (matchWhere email_ phoneNumber_) ;;
  if Nat.eqb (length matchingContacts) 0 then
    newContact <- create email_ phoneNumber_ primary None ;;
    ret (buildResponse newContact [])
  else
    let primaryIds := rootIds matchingContacts in
    primaryContacts <- findManyOrderByCreatedAt (rootWhere primaryIds) ;;
    let truePrimary := nth_error primaryContacts 0 in
    (if Nat.ltb 1 (length primaryContacts)
     then mergeLoop truePrimary (skipn 1 primaryContacts)
     else ret tt) ;;;
    match truePrimary with
    | None => throw TypeError
    | Some truePrimary =>
        allSecondaries <- findMany (linkedWhere (id truePrimary)) ;;
        let allContacts := truePrimary :: allSecondaries in
        let allEmails := set_of_strs (truthy_values email allContacts) in
        let allPhones := set_of_strs (truthy_values phoneNumber allContacts) in
        let isNewEmail := isNew email_ allEmails in
        let isNewPhone := isNew phoneNumber_ allPhones in
        if isNewEmail || isNewPhone then
          newSecondary <- create email_ phoneNumber_ secondary
                            (Some (id truePrimary)) ;;
          ret (buildResponse truePrimary (allSecondaries ++ [newSecondary]))
        else
          ret (buildResponse truePrimary allSecondaries)
    end.

(** ** The route handler ([POST /identify]) *)

(** A field of the parsed JSON body ([req.body], an object) as the handler
    reads it: any JSON value, or [undefined] when the field is missing.
    The handler looks at two things only, whether the value is truthy and
    what [String] makes of it.  A number carries the text [String] gives
    for it and whether it is zero; of an object it matters only whether
    it has a property named [toString]. *)
#[local] Unset Elimination Schemes.
Inductive JsValue : Type :=
| JsUndefined
| JsNull
| JsBool (b : bool)
| JsNumber (isZero : bool) (shown : string)
| JsString (s : string)
| JsArray (elements : list JsValue)
| JsObject (ownToString : bool).
#[local] Set Elimination Schemes.

(** [!!v]: [undefined], [null], [false], zero and the empty string are
    falsy; every array and every object is truthy. *)
Definition truthy_js (v : JsValue) : bool :=
  match v with
  | JsUndefined | JsNull => false
  | JsBool b => b
  | JsNumber isZero _ => negb isZero
  | JsString s => negb (String.eqb s EmptyString)
  | JsArray _ | JsObject _ => true
  end.

(** [Array.prototype.join(",")]. *)
Fixpoint joinComma (l : list string) : string :=
  match l with
  | [] => EmptyString
  | [s] => s
  | s :: rest => (s ++ "," ++ joinComma rest)%string
  end.

(** [String(v)], or [None] when it throws a [TypeError].  An array is
    the join of its elements, [null] and [undefined] elements counting
    as empty, so [String([])] is the empty string.  An object parsed from
    JSON is ["[object Object]"], unless it has a property named
    [toString]: that property is no function, and the conversion
    throws. *)
Fixpoint toString (v : JsValue) : option string :=
  match v with
  | JsUndefined => Some "undefined"%string
  | JsNull => Some "null"%string
  | JsBool true => Some "true"%string
  | JsBool false => Some "false"%string
  | JsNumber _ shown => Some shown
  | JsString s => Some s
  | JsArray elements =>
      option_map joinComma
        ((fix each (l : list JsValue) : option (list string) :=
            match l with
            | [] => Some []
            | x :: l' =>
                match match x with
                      | JsUndefined | JsNull => Some EmptyString
                      | _ => toString x
                      end, each l' with
                | Some s, Some ss => Some (s :: ss)
                | _, _ => None
                end
            end) elements)
  | JsObject ownToString =>
      if ownToString then None else Some "[object Object]"%string
  end.

Record Body : Type := mkBody {
  body_email : JsValue;
  body_phoneNumber : JsValue
}.

Inductive HttpResponse : Type :=
| Status200 (contact : ContactResponse)
| Status400
| Status500.

(** [v ? String(v) : null]. *)
Definition stringOrNull (v : JsValue) : Outcome (option string) :=
  if truthy_js v
  then match toString v with
       | Some s => Ok (Some s)
       | None => Throw TypeError
       end
  else Ok None.

(** The arguments of [identifyContact] are computed inside the [try]:
    whatever is thrown, there or in the call, is answered with 500. *)
Definition identifyRouter (body : Body) (d : Db) : HttpResponse * Db :=
  if negb (truthy_js (body_email body))
     && negb (truthy_js (body_phoneNumber body))
  then (Status400, d)
  else
    match stringOrNull (body_email body),
          stringOrNull (body_phoneNumber body) with
    | Ok email_, Ok phoneNumber_ =>
        match identifyContact email_ phoneNumber_ d with
        | (Ok result, d') => (Status200 result, d')
        | (Throw _, d') => (Status500, d')
        end
    | _, _ => (Status500, d)
    end.

(** ** What one call reads and writes *)

(** Step 1's result set, and step 3's root records in fetch order. *)
Definition matching (e p : option string) (d : Db) : list Contact :=
  filter (matchWhere e p) (rows d).

Definition roots (e p : option string) (d : Db) : list Contact :=
  orderByCreatedAt (tieRank d)
    (filter (rootWhere (rootIds (matching e p d))) (rows d)).

(** The row [create] inserts. *)
Definition newRow (e p : option string) (lp : LinkPrecedence)
  (l : option Z) (d : Db) : Contact :=
  mkContact (nextId d) p e l lp (clock d) (clock d) None.

(** The two writes of one loop iteration, on the table. *)
Definition demoteStep (tp now : Z) (p : Contact) (rs : list Contact)
  : list Contact :=
  rewritten (fun c => id c =? id p) (demote tp now) rs.

Definition relinkStep (tp : Z) (p : Contact) (rs : list Contact)
  : list Contact :=
  rewritten (linkedWhere (id p)) (relink tp) rs.

Definition mergeStep (tp now : Z) (rs : list Contact) (p : Contact)
  : list Contact :=
  relinkStep tp p (demoteStep tp now p rs).

Definition mergeRows (tp now : Z) (ps : list Contact) (rs : list Contact)
  : list Contact :=
  fold_left (mergeStep tp now) ps rs.

Definition mergeCalls (ps : list Contact) : list StoreCall :=
  flat_map (fun _ : Contact => [Update; UpdateMany]) ps.

(** The table after step 3b and the secondaries step 4 fetches from it. *)
Definition merged (tp : Contact) (rest : list Contact) (d : Db)
  : list Contact :=
  mergeRows (id tp) (clock d) rest (rows d).

Definition fetchedSecondaries (tp : Contact) (rest : list Contact) (d : Db)
  : list Contact :=
  filter (linkedWhere (id tp)) (merged tp rest d).

(** Step 5's test on the fetched group. *)
Definition groupEmails (tp : Contact) (secs : list Contact) : list string :=
  set_of_strs (truthy_values email (tp :: secs)).

Definition groupPhones (tp : Contact) (secs : list Contact) : list string :=
  set_of_strs (truthy_values phoneNumber (tp :: secs)).

Definition hasNewInfo (e p : option string) (tp : Contact)
  (secs : list Contact) : bool :=
  isNew e (groupEmails tp secs) || isNew p (groupPhones tp secs).

(** The database with no outage planned. *)
Definition up (d : Db) : Db :=
  mkDb (rows d) (nextId d) (clock d) (calls d) None (tieRank d).

(** A computation whose completed runs do not depend on the outage
    plan. *)
Definition steady {A : Type} (m : Prisma A) : Prop :=
  forall d a d', m d = (Ok a, d') -> m (up d) = (Ok a, up d').

(** ** Vocabulary of the properties *)

(** A field of the body is absent when it is missing, [null], empty or
    another falsy value: the test [!v] of the route handler. *)
Definition absent (v : JsValue) : bool := negb (truthy_js v).

(** A field of which [String] makes a string. *)
Definition stringifies (v : JsValue) : bool :=
  match toString v with
  | Some _ => true
  | None => false
  end.


(** A stored column equal to a request value that is not [null]. *)
Definition col_eq (col v : option string) : bool :=
  match v with
  | Some s => col_str_is col s
  | None => false
  end.


(** The root id that step 3 reads off one matched record, if any. *)
Definition rootOf (m : Contact) : option Z :=
  match linkPrecedence m with
  | primary => Some (id m)
  | secondary => if truthy_num (linkedId m) then linkedId m else None
  end.

Definition live (c : Contact) : bool := is_null (deletedAt c).

(** A matched record that resolves to no root: a secondary whose
    [linkedId] is null (or zero), or names no non-deleted record. *)
Definition unresolved (d : Db) (m : Contact) : bool :=
  match linkPrecedence m with
  | primary => false
  | secondary =>
      negb (truthy_num (linkedId m))
      || negb (existsb (fun c => col_num_is (linkedId m) (id c) && live c)
                 (rows d))
  end.

(** A database that tells rows with equal [createdAt] apart by nothing:
    an ordered fetch returns them in the order of [rows]. *)
Definition byPlace : Contact -> Z := fun _ => 0.

(** Example tables.  [db_hill]: one primary and one secondary of it. *)
Definition db_hill : Db :=
  mkDb [ mkContact 1 (Some "123456"%string)
           (Some "lorraine@hillvalley.edu"%string) None primary 10 10 None;
         mkContact 2 (Some "123456"%string)
           (Some "mcfly@hillvalley.edu"%string) (Some 1) secondary 20 20
           None ]
       3 100 [] None byPlace.

(** [db_orphan]: a primary that was soft-deleted, and its secondary. *)
Definition db_orphan : Db :=
  mkDb [ mkContact 1 (Some "111"%string) (Some "doc@hillvalley.edu"%string)
           None primary 10 10 (Some 50);
         mkContact 2 (Some "222"%string) (Some "doc@hillvalley.edu"%string)
           (Some 1) secondary 20 20 None ]
       3 100 [] None byPlace.

(** The response lists in the specification's words: the column over the
    primary and then the secondaries in order, skipping absent values and
    values already listed. *)
Fixpoint skipSeen (seen : list string) (vals : list (option string))
  : list string :=
  match vals with
  | [] => []
  | v :: vs =>
      match v with
      | Some s =>
          if truthy_str v && negb (includes_str seen s)
          then s :: skipSeen (s :: seen) vs
          else skipSeen seen vs
      | None => skipSeen seen vs
      end
  end.

Definition listed (f : Contact -> option string) (prim : Contact)
  (secs : list Contact) : list string :=
  skipSeen [] (map f (prim :: secs)).

(** The group a call hands to [buildResponse]: the true primary and the
    secondaries in the order step 4's fetch returns them from the table
    the merge left, the secondary step 5 creates coming last. *)
Definition materialized (e p : option string) (d : Db)
  : option (Contact * list Contact) :=
  match matching e p d with
  | [] => Some (newRow e p primary None d, [])
  | _ :: _ =>
      match roots e p d with
      | [] => None
      | tp :: rest =>
          let secs := fetchedSecondaries tp rest d in
          Some (tp, if hasNewInfo e p tp secs
                    then secs ++ [newRow e p secondary (Some (id tp)) d]
                    else secs)
      end
  end.

(** What the database guarantees of the table: ids are unique, positive
    and were issued by the sequence, which counts from a positive number;
    every [linkedId] names an issued id. *)
Fixpoint nodup_num (l : list Z) : bool :=
  match l with
  | [] => true
  | x :: xs => negb (includes_num xs x) && nodup_num xs
  end.

Definition ids_unique (d : Db) : bool := nodup_num (map id (rows d)).

Definition ids_issued (d : Db) : bool :=
  forallb (fun c => (0 <? id c) && (id c <? nextId d)) (rows d).

Definition links_issued (d : Db) : bool :=
  forallb (fun c => match linkedId c with
                    | Some l => l <? nextId d
                    | None => true
                    end) (rows d).

Definition well_formed (d : Db) : bool :=
  ids_unique d && ids_issued d && links_issued d && (0 <? nextId d).

Definition is_secondary (c : Contact) : bool :=
  LinkPrecedence_eqb (linkPrecedence c) secondary.

(** What the merge makes of one row: a record whose id is among the
    demoted roots' ids is demoted; another non-deleted record linked to
    one of them is re-pointed; the rest is left alone.  (Where the row
    then stands in the table is another matter: see [rewritten].) *)
Definition linkedToAny (ids : list Z) (c : Contact) : bool :=
  live c && match linkedId c with
            | Some l => includes_num ids l
            | None => false
            end.

Definition mergeRow (tp now : Z) (ids : list Z) (c : Contact) : Contact :=
  if includes_num ids (id c) then demote tp now c
  else if linkedToAny ids c then relink tp c
  else c.

(** [db_two]: two independent primaries, the younger with a secondary. *)
Definition db_two : Db :=
  mkDb [ mkContact 1 None (Some "doc@hillvalley.edu"%string) None primary
           10 10 None;
         mkContact 2 (Some "5550100"%string) None None primary 20 20 None;
         mkContact 3 (Some "5550199"%string) None (Some 2) secondary 30 30
           None ]
       4 100 [] None byPlace.

(** A selection rule that breaks ties on [createdAt] by ascending id. *)
Definition oldest_lowest_id (rs : list Contact) (tp : Contact) : Prop :=
  In tp rs
  /\ forall q, In q rs ->
       createdAt tp < createdAt q
       \/ (createdAt tp = createdAt q /\ id tp <= id q).

(** [db_tie]: two independent primaries created in the same millisecond,
    in a database that returns the one with the higher id first. *)
Definition db_tie : Db :=
  mkDb [ mkContact 2 None (Some "doc@hillvalley.edu"%string) None primary
           10 10 None;
         mkContact 1 (Some "5550100"%string) None None primary 10 10 None ]
       3 100 [] None byPlace.

(** A request value that is not [null] and that no record of the group
    carries in the given column. *)
Definition unseen (f : Contact -> option string) (v : option string)
  (group : list Contact) : bool :=
  match v with
  | Some s => negb (existsb (fun c => col_str_is (f c) s) group)
  | None => false
  end.

(** The tables a merge can be interrupted in: the merge applied to the
    first [k] of the roots to demote, possibly followed by the demotion
    alone of the next one. *)
Definition interrupted (tp now : Z) (rest rs rs' : list Contact) : Prop :=
  exists k,
    rs' = mergeRows tp now (firstn k rest) rs
    \/ exists q, nth_error rest k = Some q
                 /\ rs' = demoteStep tp now q
                            (mergeRows tp now (firstn k rest) rs).

(** [db_two] with the database going away after three round trips. *)
Definition db_two_cut : Db :=
  mkDb (rows db_two) (nextId db_two) (clock db_two) [] (Some 3%nat) byPlace.

Definition is_primary (c : Contact) : bool :=
  LinkPrecedence_eqb (linkPrecedence c) primary.

(** One level of indirection: every non-deleted secondary is linked to a
    non-deleted primary of the table. *)
Definition depth_one (rs : list Contact) : bool :=
  forallb (fun c =>
             negb (live c && is_secondary c)
             || existsb (fun q => col_num_is (linkedId c) (id q)
                                  && live q && is_primary q) rs) rs.

(** The tables the service builds from an empty one while the database
    stays up: time passes (and with it the database may come to order
    ties another way), and requests are handled one after the other;
    nothing else writes to the table. *)
Inductive built : Db -> Prop :=
| built_empty (t : Z) (rank : Contact -> Z) :
    built (mkDb [] 1 t [] None rank)
| built_tick (d : Db) (t : Z) (rank : Contact -> Z) :
    built d ->
    built (mkDb (rows d) (nextId d) t (calls d) (outage d) rank)
| built_request (d : Db) (body : Body) (resp : HttpResponse) (d' : Db) :
    built d -> identifyRouter body d = (resp, d') -> built d'.

(** [db_blank]: [db_hill] and a third record, a primary whose email is
    the empty string. *)
Definition db_blank : Db :=
  mkDb (rows db_hill
        ++ [mkContact 3 None (Some EmptyString) None primary 30 30 None])
       4 100 [] None byPlace.

(** ** Vocabulary of the further properties *)

(** Two versions of a record with the same identity and contact data. *)
Definition same_data (a b : Contact) : Prop :=
  id a = id b /\ email a = email b /\ phoneNumber a = phoneNumber b
  /\ createdAt a = createdAt b /\ deletedAt a = deletedAt b.

(** A later version of a record that has not gone from [secondary] back
    to [primary]. *)
Definition not_promoted (a b : Contact) : Prop :=
  linkPrecedence a = secondary -> linkPrecedence b = secondary.

(** The one write of an interrupted loop iteration, on one row. *)
Definition demoteRow (tp now i : Z) (c : Contact) : Contact :=
  if id c =? i then demote tp now c else c.

(** [db_hill] with the database going away after two round trips. *)
Definition db_hill_cut : Db :=
  mkDb (rows db_hill) (nextId db_hill) (clock db_hill) [] (Some 2%nat)
    byPlace.

(** Every primary has a null [linkedId]. *)
Definition primaries_unlinked (rs : list Contact) : bool :=
  forallb (fun c => negb (is_primary c) || is_null (linkedId c)) rs.

(** The table after the service, starting empty at time 0, has handled one
    request with an email. *)
Definition db_first : Db :=
  snd (identifyRouter
         (mkBody (JsString "doc@hillvalley.edu"%string) JsUndefined)
         (mkDb [] 1 0 [] None byPlace)).

(** ** Nulls, ties and example tables *)

(** The response lists in the specification's words, to the letter: nulls
    and values already listed are skipped, and nothing else. *)
Fixpoint skipNulls (seen : list string) (vals : list (option string))
  : list string :=
  match vals with
  | [] => []
  | Some s :: vs =>
      if includes_str seen s then skipNulls seen vs
      else s :: skipNulls (s :: seen) vs
  | None :: vs => skipNulls seen vs
  end.

Definition listedNonNull (f : Contact -> option string) (prim : Contact)
  (secs : list Contact) : list string :=
  skipNulls [] (map f (prim :: secs)).

(** The table after the service, starting empty at time 0, has handled the
    request whose body is [{ "email": [], "phoneNumber": "5550100" }]. *)
Definition db_array : Db :=
  snd (identifyRouter (mkBody (JsArray []) (JsString "5550100"%string))
         (mkDb [] 1 0 [] None byPlace)).

(** [db_four]: [db_two] and a secondary of its older primary. *)
Definition db_four : Db :=
  mkDb (rows db_two
        ++ [mkContact 4 (Some "5550142"%string) None (Some 1) secondary 40
              40 None])
       5 100 [] None byPlace.

(** [db_del]: [db_two] with the secondary of the younger primary
    soft-deleted. *)
Definition db_del : Db :=
  mkDb [ mkContact 1 None (Some "doc@hillvalley.edu"%string) None primary
           10 10 None;
         mkContact 2 (Some "5550100"%string) None None primary 20 20 None;
         mkContact 3 (Some "5550199"%string) None (Some 2) secondary 30 30
           (Some 50) ]
       4 100 [] None byPlace.

(** A non-deleted record carrying a value the request gives. *)
Definition carries (e p : option string) (c : Contact) : bool :=
  live c
  && ((truthy_str e && col_eq (email c) e)
      || (truthy_str p && col_eq (phoneNumber c) p)).

(** A root of the request: a non-deleted record that is the root of some
    record carrying a value the request gives. *)
Definition requestRoot (e p : option string) (d : Db) (q : Contact) : bool :=
  live q
  && existsb (fun m => carries e p m
                       && match rootOf m with
                          | Some x => x =? id q
                          | None => false
                          end) (rows d).

(** Equality of rows, column by column. *)
Definition opt_str_eqb (a b : option string) : bool :=
  match a, b with
  | Some x, Some y => String.eqb x y
  | None, None => true
  | _, _ => false
  end.

Definition opt_num_eqb (a b : option Z) : bool :=
  match a, b with
  | Some x, Some y => x =? y
  | None, None => true
  | _, _ => false
  end.

Definition Contact_eqb (a b : Contact) : bool :=
  (id a =? id b)
  && opt_str_eqb (phoneNumber a) (phoneNumber b)
  && opt_str_eqb (email a) (email b)
  && opt_num_eqb (linkedId a) (linkedId b)
  && LinkPrecedence_eqb (linkPrecedence a) (linkPrecedence b)
  && (createdAt a =? createdAt b)
  && (updatedAt a =? updatedAt b)
  && opt_num_eqb (deletedAt a) (deletedAt b).

(** The rank that orders ties as a given list has them: the place of a row
    in that list. *)
Fixpoint placeIn (l : list Contact) (c : Contact) : Z :=
  match l with
  | [] => 0
  | x :: xs => if Contact_eqb x c then 0 else 1 + placeIn xs c
  end.

(** A list in which every row stands in relation [R] to the rows after
    it. *)
Fixpoint ordered (R : Contact -> Contact -> Prop) (l : list Contact) : Prop :=
  match l with
  | [] => True
  | x :: xs => (forall y, In y xs -> R x y) /\ ordered R xs
  end.

(** [db_tie_low]: the rows of [db_tie] in a database that returns the one
    with the lower id first. *)
Definition db_tie_low : Db :=
  mkDb (rows db_tie) (nextId db_tie) (clock db_tie) [] None
    (fun c => id c).

(** * Proofs *)

(** ** Running the client while the database is up *)

Lemma roundtrip_up (c : StoreCall) (d : Db) :
  outage d = None -> roundtrip c d = (Ok tt, logged c d).
Proof. intros H. unfold roundtrip. now rewrite H. Qed.

Lemma findMany_up (w : Contact -> bool) (d : Db) :
  outage d = None ->
  findMany w d = (Ok (filter w (rows d)), logged FindMany d).
Proof.
  intros H. unfold findMany, bind. now rewrite roundtrip_up.
Qed.

Lemma findManyOrderByCreatedAt_up (w : Contact -> bool) (d : Db) :
  outage d = None ->
  findManyOrderByCreatedAt w d
  = (Ok (orderByCreatedAt (tieRank d) (filter w (rows d))),
     logged FindMany d).
Proof.
  intros H. unfold findManyOrderByCreatedAt, bind. now rewrite roundtrip_up.
Qed.

Lemma create_up (e p : option string) (lp : LinkPrecedence) (l : option Z)
  (d : Db) :
  outage d = None ->
  create e p lp l d
  = (Ok (newRow e p lp l d),
     mkDb (rows d ++ [newRow e p lp l d]) (nextId d + 1) (clock d)
       (calls d ++ [Create]) None (tieRank d)).
Proof.
  intros H. unfold create, bind. rewrite roundtrip_up by assumption.
  simpl. now rewrite H.
Qed.

Lemma mergeLoop_up (tp : Contact) (ps : list Contact) :
  forall d, outage d = None ->
  mergeLoop (Some tp) ps d
  = (Ok tt, mkDb (mergeRows (id tp) (clock d) ps (rows d)) (nextId d)
              (clock d) (calls d ++ mergeCalls ps) None (tieRank d)).
Proof.
  induction ps as [|p ps IH]; intros [rs n t cs o rk] H; simpl in H; subst o.
  - simpl. unfold ret. now rewrite app_nil_r.
  - cbn [mergeLoop]. unfold bind at 1. cbn [idOf ret].
    unfold bind at 1. unfold newDate at 1. cbn [clock].
    unfold bind at 1. unfold update at 1. unfold bind at 1.
    rewrite roundtrip_up by reflexivity.
    unfold bind at 1. cbn [idOf ret].
    unfold bind at 1. unfold updateMany at 1. unfold bind at 1.
    rewrite roundtrip_up by reflexivity.
    cbn [logged with_rows rows nextId clock calls outage tieRank].
    rewrite IH by reflexivity.
    unfold with_rows, logged.
    cbn [rows nextId clock calls outage tieRank mergeRows fold_left
         mergeCalls flat_map].
    unfold mergeStep, relinkStep, demoteStep.
    rewrite <- !app_assoc. reflexivity.
Qed.

Lemma identifyContact_no_match (e p : option string) (d : Db) :
  outage d = None ->
  matching e p d = [] ->
  identifyContact e p d
  = (Ok (buildResponse (newRow e p primary None d) []),
     mkDb (rows d ++ [newRow e p primary None d]) (nextId d + 1) (clock d)
       (calls d ++ [FindMany; Create]) None (tieRank d)).
Proof.
  intros Hup Hm. unfold identifyContact, bind.
  rewrite findMany_up by assumption. fold (matching e p d). rewrite Hm.
  cbn [List.length Nat.eqb]. rewrite create_up by assumption.
  unfold ret, newRow, logged. cbn [rows nextId clock calls outage tieRank].
  now rewrite <- app_assoc.
Qed.

Lemma identifyContact_no_root (e p : option string) (d : Db) :
  outage d = None ->
  matching e p d <> [] ->
  roots e p d = [] ->
  identifyContact e p d
  = (Throw TypeError, logged FindMany (logged FindMany d)).
Proof.
  intros Hup Hm Hr. unfold identifyContact, bind.
  rewrite findMany_up by assumption. fold (matching e p d).
  destruct (matching e p d) as [|m ms] eqn:E; [congruence|].
  cbn [List.length Nat.eqb].
  rewrite findManyOrderByCreatedAt_up by assumption.
  cbn [rows tieRank logged]. rewrite <- E. fold (roots e p d). rewrite Hr.
  reflexivity.
Qed.

Lemma identifyContact_group (e p : option string) (d : Db)
  (tp : Contact) (rest : list Contact) :
  outage d = None ->
  matching e p d <> [] ->
  roots e p d = tp :: rest ->
  identifyContact e p d
  = let secs := fetchedSecondaries tp rest d in
    let cs := calls d ++ [FindMany; FindMany] ++ mergeCalls rest
                ++ [FindMany] in
    if hasNewInfo e p tp secs
    then (Ok (buildResponse tp
                (secs ++ [newRow e p secondary (Some (id tp)) d])),
          mkDb (merged tp rest d ++ [newRow e p secondary (Some (id tp)) d])
            (nextId d + 1) (clock d) (cs ++ [Create]) None (tieRank d))
    else (Ok (buildResponse tp secs),
          mkDb (merged tp rest d) (nextId d) (clock d) cs None (tieRank d)).
Proof.
  intros Hup Hm Hr. unfold identifyContact, bind.
  rewrite findMany_up by assumption. fold (matching e p d).
  destruct (matching e p d) as [|m ms] eqn:E; [congruence|].
  cbn [List.length Nat.eqb].
  rewrite findManyOrderByCreatedAt_up by assumption.
  cbn [rows tieRank logged]. rewrite <- E. fold (roots e p d). rewrite Hr.
  cbn [nth_error skipn List.length].
  assert (Hloop :
    (if Nat.ltb 1 (S (List.length rest))
     then mergeLoop (Some tp) rest else ret tt)
      (logged FindMany (logged FindMany d))
    = (Ok tt, mkDb (merged tp rest d) (nextId d) (clock d)
                (((calls d ++ [FindMany]) ++ [FindMany]) ++ mergeCalls rest)
                None (tieRank d))).
  { destruct rest as [|q rest].
    - unfold ret, merged, logged. cbn. rewrite Hup, app_nil_r. reflexivity.
    - replace (Nat.ltb 1 (S (List.length (q :: rest)))) with true
        by reflexivity.
      rewrite mergeLoop_up by assumption. reflexivity. }
  rewrite Hloop.
  rewrite findMany_up by reflexivity.
  cbn [rows logged nextId clock calls outage tieRank].
  fold (fetchedSecondaries tp rest d).
  cbv zeta. unfold hasNewInfo, groupEmails, groupPhones.
  destruct (isNew e _ || isNew p _).
  - rewrite create_up by reflexivity. unfold ret, newRow, logged.
    cbn [rows nextId clock calls outage tieRank].
    rewrite <- !app_assoc. reflexivity.
  - unfold ret, logged. cbn [rows nextId clock calls outage tieRank].
    rewrite <- !app_assoc. reflexivity.
Qed.

(** Closes the first half of [exists r d', run = (Ok r, d') /\ _] once
    [run] has been rewritten to the pair it returns. *)
Ltac completes := eexists; eexists; split; [reflexivity|].

(** ** Completed calls do not depend on the outage plan *)

Lemma steady_ret {A : Type} (a : A) : steady (ret a).
Proof. intros d a' d' H. inversion H; subst. reflexivity. Qed.

Lemma steady_throw {A : Type} (e : Exn) : steady (@throw A e).
Proof. intros d a d' H. discriminate H. Qed.

Lemma steady_bind {A B : Type} (m : Prisma A) (k : A -> Prisma B) :
  steady m -> (forall a, steady (k a)) -> steady (bind m k).
Proof.
  intros Hm Hk d b d' H. unfold bind in *.
  destruct (m d) as [[a|x] d1] eqn:E; [|discriminate].
  rewrite (Hm _ _ _ E). now apply Hk.
Qed.

Lemma steady_roundtrip (c : StoreCall) : steady (roundtrip c).
Proof.
  intros [rs n t cs o rk] a d' H. unfold roundtrip in *. cbn in *.
  destruct o as [k|].
  - destruct (Nat.eqb k (List.length cs)); inversion H; subst. reflexivity.
  - inversion H; subst. reflexivity.
Qed.

Lemma steady_pure {A : Type} (f : Db -> A) (g : Db -> Db) :
  (forall d, f (up d) = f d) -> (forall d, g (up d) = up (g d)) ->
  steady (fun d => (Ok (f d), g d)).
Proof.
  intros Hf Hg d a d' H. inversion H; subst. now rewrite Hf, Hg.
Qed.

Lemma steady_findMany (w : Contact -> bool) : steady (findMany w).
Proof.
  apply steady_bind; [apply steady_roundtrip|]. intros _.
  now apply (steady_pure (fun d => filter w (rows d)) (fun d => d)).
Qed.

Lemma steady_findManyOrderByCreatedAt (w : Contact -> bool) :
  steady (findManyOrderByCreatedAt w).
Proof.
  apply steady_bind; [apply steady_roundtrip|]. intros _.
  now apply (steady_pure
               (fun d => orderByCreatedAt (tieRank d) (filter w (rows d)))
               (fun d => d)).
Qed.

Lemma steady_create (e p : option string) (lp : LinkPrecedence)
  (l : option Z) : steady (create e p lp l).
Proof.
  apply steady_bind; [apply steady_roundtrip|]. intros _.
  now apply (steady_pure
    (fun d => mkContact (nextId d) p e l lp (clock d) (clock d) None)
    (fun d => mkDb (rows d
        ++ [mkContact (nextId d) p e l lp (clock d) (clock d) None])
       (nextId d + 1) (clock d) (calls d) (outage d) (tieRank d))).
Qed.

Lemma steady_update (i : Z) (f : Contact -> Contact) : steady (update i f).
Proof.
  apply steady_bind; [apply steady_roundtrip|]. intros _.
  now apply (steady_pure (fun _ => tt)
    (fun d => with_rows d (rewritten (fun c => id c =? i) f (rows d)))).
Qed.

Lemma steady_updateMany (w : Contact -> bool) (f : Contact -> Contact) :
  steady (updateMany w f).
Proof.
  apply steady_bind; [apply steady_roundtrip|]. intros _.
  now apply (steady_pure (fun _ => tt)
    (fun d => with_rows d (rewritten w f (rows d)))).
Qed.

Lemma steady_idOf (c : option Contact) : steady (idOf c).
Proof. destruct c; [apply steady_ret | apply steady_throw]. Qed.

Lemma steady_newDate : steady newDate.
Proof. now apply (steady_pure clock (fun d => d)). Qed.

Create HintDb steady.

#[local] Hint Resolve steady_ret steady_throw steady_roundtrip
  steady_findMany steady_findManyOrderByCreatedAt steady_create
  steady_update steady_updateMany steady_idOf steady_newDate : steady.

Lemma steady_mergeLoop (tp : option Contact) (ps : list Contact) :
  steady (mergeLoop tp ps).
Proof.
  induction ps as [|p ps IH]; cbn [mergeLoop]; auto with steady.
  repeat (apply steady_bind; [auto with steady | intros ?]).
  exact IH.
Qed.

Lemma steady_identifyContact (e p : option string) :
  steady (identifyContact e p).
Proof.
  unfold identifyContact.
  apply steady_bind; [auto with steady | intros ms].
  destruct (Nat.eqb (List.length ms) 0).
  - apply steady_bind; [auto with steady | intros ?]; auto with steady.
  - apply steady_bind; [auto with steady | intros ps].
    apply steady_bind.
    + destruct (Nat.ltb 1 (List.length ps));
        [apply steady_mergeLoop | auto with steady].
    + intros _. destruct (nth_error ps 0) as [tp|]; [|auto with steady].
      apply steady_bind; [auto with steady | intros secs]. cbv zeta.
      destruct (_ || _); [|auto with steady].
      apply steady_bind; [auto with steady | intros ?]; auto with steady.
Qed.

(** The two ways a call completes: a fresh primary, or a resolved group
    with at most one fresh secondary. *)
Lemma completed_cases (e p : option string) (d : Db)
  (r : ContactResponse) (d' : Db) :
  identifyContact e p d = (Ok r, d') ->
  (matching e p d = []
   /\ r = buildResponse (newRow e p primary None d) []
   /\ rows d' = rows d ++ [newRow e p primary None d]
   /\ nextId d' = nextId d + 1)
  \/
  (exists tp rest,
     matching e p d <> [] /\ roots e p d = tp :: rest
     /\ ((hasNewInfo e p tp (fetchedSecondaries tp rest d) = true
          /\ r = buildResponse tp (fetchedSecondaries tp rest d
                   ++ [newRow e p secondary (Some (id tp)) d])
          /\ rows d' = merged tp rest d
                         ++ [newRow e p secondary (Some (id tp)) d]
          /\ nextId d' = nextId d + 1)
         \/
         (hasNewInfo e p tp (fetchedSecondaries tp rest d) = false
          /\ r = buildResponse tp (fetchedSecondaries tp rest d)
          /\ rows d' = merged tp rest d
          /\ nextId d' = nextId d))).
Proof.
  intros H. apply steady_identifyContact in H.
  assert (Hup : outage (up d) = None) by reflexivity.
  change (rows d') with (rows (up d')).
  change (nextId d') with (nextId (up d')).
  destruct (matching e p d) as [|m ms] eqn:Em.
  - left. rewrite (identifyContact_no_match e p (up d) Hup Em) in H.
    injection H as Hr Hrows Hnext _ _. cbn [up rows nextId].
    rewrite <- Hr, <- Hrows, <- Hnext. repeat split; reflexivity.
  - right. assert (Hne : matching e p (up d) <> []).
    { change (matching e p (up d)) with (matching e p d).
      rewrite Em. discriminate. }
    destruct (roots e p d) as [|tp rest] eqn:Er.
    + rewrite (identifyContact_no_root e p (up d) Hup Hne Er) in H.
      discriminate H.
    + exists tp, rest. split; [discriminate|]. split; [reflexivity|].
      rewrite (identifyContact_group e p (up d) tp rest Hup Hne Er) in H.
      cbv zeta in H.
      change (fetchedSecondaries tp rest (up d))
        with (fetchedSecondaries tp rest d) in H.
      destruct (hasNewInfo e p tp (fetchedSecondaries tp rest d));
        injection H as Hr Hrows Hnext _ _; cbn [up rows nextId];
        rewrite <- Hr, <- Hrows, <- Hnext; [left|right];
        repeat split; reflexivity.
Qed.

(** ** Lists, sets and the ordered fetch *)

Lemma includes_num_In (l : list Z) (v : Z) :
  includes_num l v = true <-> In v l.
Proof.
  unfold includes_num. rewrite existsb_exists. split.
  - intros [x [Hx E]]. apply Z.eqb_eq in E. now subst.
  - intros H. exists v. split; [assumption | apply Z.eqb_refl].
Qed.

Lemma includes_str_In (l : list string) (v : string) :
  includes_str l v = true <-> In v l.
Proof.
  unfold includes_str. rewrite existsb_exists. split.
  - intros [x [Hx E]]. apply String.eqb_eq in E. now subst.
  - intros H. exists v. split; [assumption | apply String.eqb_refl].
Qed.

Lemma set_add_num_In (s : list Z) (v x : Z) :
  In x (set_add_num s v) <-> In x s \/ x = v.
Proof.
  unfold set_add_num. destruct (includes_num s v) eqn:E.
  - apply includes_num_In in E. split; [auto|]. intros [H|H]; now subst.
  - rewrite in_app_iff. simpl. intuition.
Qed.

Lemma addRoot_rootOf (s : list Z) (m : Contact) :
  addRoot s m = match rootOf m with
                | Some x => set_add_num s x
                | None => s
                end.
Proof.
  unfold addRoot, rootOf. destruct (linkPrecedence m); [reflexivity|].
  destruct (linkedId m) as [l|]; [|reflexivity].
  now destruct (truthy_num (Some l)).
Qed.

Lemma fold_addRoot_In (ms : list Contact) :
  forall (s : list Z) (x : Z),
  In x (fold_left addRoot ms s)
  <-> In x s \/ exists m, In m ms /\ rootOf m = Some x.
Proof.
  induction ms as [|m ms IH]; intros s x; cbn [fold_left].
  - split; [auto|]. intros [H|[m [[] _]]]. assumption.
  - rewrite IH, addRoot_rootOf. split.
    + intros [H|[m' [Hin Hr]]].
      * destruct (rootOf m) as [y|] eqn:E; [|auto].
        apply set_add_num_In in H. destruct H as [H|H]; [auto|].
        subst. right. exists m. simpl. auto.
      * right. exists m'. simpl. auto.
    + intros [H|[m' [[Hin|Hin] Hr]]].
      * left. destruct (rootOf m); [apply set_add_num_In|]; auto.
      * subst m'. left. rewrite Hr. apply set_add_num_In. auto.
      * right. exists m'. auto.
Qed.

(** The [Set] of step 3 holds exactly the roots read off the matches. *)
Lemma rootIds_In (ms : list Contact) (x : Z) :
  In x (rootIds ms) <-> exists m, In m ms /\ rootOf m = Some x.
Proof.
  unfold rootIds. rewrite fold_addRoot_In. simpl. intuition.
Qed.

Lemma insertByCreatedAt_perm (rank : Contact -> Z) (c : Contact)
  (l : list Contact) :
  Permutation (insertByCreatedAt rank c l) (c :: l).
Proof.
  induction l as [|x xs IH]; simpl; [reflexivity|].
  destruct (fetchedBefore rank c x); [reflexivity|].
  rewrite IH. apply perm_swap.
Qed.

Lemma orderByCreatedAt_perm (rank : Contact -> Z) (l : list Contact) :
  Permutation (orderByCreatedAt rank l) l.
Proof.
  induction l as [|x xs IH]; simpl; [reflexivity|].
  rewrite insertByCreatedAt_perm. now constructor.
Qed.

Lemma orderByCreatedAt_In (rank : Contact -> Z) (l : list Contact)
  (c : Contact) :
  In c (orderByCreatedAt rank l) <-> In c l.
Proof.
  split; apply Permutation_in;
    [|symmetry]; apply orderByCreatedAt_perm.
Qed.

Lemma orderByCreatedAt_nil (rank : Contact -> Z) (l : list Contact) :
  orderByCreatedAt rank l = [] <-> l = [].
Proof.
  split; intros H.
  - apply Permutation_nil. rewrite <- H. apply orderByCreatedAt_perm.
  - now subst.
Qed.

Lemma fetchedBefore_false (rank : Contact -> Z) (c x : Contact) :
  fetchedBefore rank c x = false -> createdAt x <= createdAt c.
Proof.
  unfold fetchedBefore. intros H. apply orb_false_iff in H.
  destruct H as [H _]. apply Z.ltb_ge in H. exact H.
Qed.

Lemma fetchedBefore_true (rank : Contact -> Z) (c x : Contact) :
  fetchedBefore rank c x = true -> createdAt c <= createdAt x.
Proof.
  unfold fetchedBefore. intros H. apply orb_true_iff in H.
  destruct H as [H|H].
  - apply Z.ltb_lt in H. lia.
  - apply andb_true_iff in H. destruct H as [H _].
    apply Z.eqb_eq in H. lia.
Qed.

(** The head of the ordered fetch has the least [createdAt], whatever the
    database makes of ties. *)
Lemma orderByCreatedAt_oldest (rank : Contact -> Z) (l : list Contact) :
  forall x xs, orderByCreatedAt rank l = x :: xs ->
  forall q, In q l -> createdAt x <= createdAt q.
Proof.
  induction l as [|a l IH]; intros x xs H q Hq; [destruct Hq|].
  cbn [orderByCreatedAt fold_right] in H.
  fold (orderByCreatedAt rank l) in H.
  destruct (orderByCreatedAt rank l) as [|y ys] eqn:E.
  - apply -> orderByCreatedAt_nil in E. subst l. cbn in H.
    injection H as <- <-. destruct Hq as [<-|[]]. lia.
  - specialize (IH y ys eq_refl). cbn [insertByCreatedAt] in H.
    destruct (fetchedBefore rank a y) eqn:C.
    + injection H as <- <-. apply fetchedBefore_true in C.
      destruct Hq as [<-|Hq]; [lia|]. specialize (IH q Hq). lia.
    + injection H as <- <-. apply fetchedBefore_false in C.
      destruct Hq as [<-|Hq]; [lia|]. now apply IH.
Qed.

(** ** The ordered fetch leaves ties to the database *)

Lemma opt_str_eqb_eq (a b : option string) :
  opt_str_eqb a b = true <-> a = b.
Proof.
  destruct a as [x|], b as [y|]; cbn; try (split; congruence).
  rewrite String.eqb_eq. split; congruence.
Qed.

Lemma opt_num_eqb_eq (a b : option Z) :
  opt_num_eqb a b = true <-> a = b.
Proof.
  destruct a as [x|], b as [y|]; cbn; try (split; congruence).
  rewrite Z.eqb_eq. split; congruence.
Qed.

Lemma Contact_eqb_eq (a b : Contact) : Contact_eqb a b = true <-> a = b.
Proof.
  destruct a as [i1 p1 e1 l1 k1 c1 u1 d1], b as [i2 p2 e2 l2 k2 c2 u2 d2].
  unfold Contact_eqb.
  cbn [id phoneNumber email linkedId linkPrecedence createdAt updatedAt
       deletedAt].
  rewrite !andb_true_iff, !Z.eqb_eq, !opt_str_eqb_eq, !opt_num_eqb_eq.
  split.
  - intros [[[[[[[-> ->] ->] ->] Hk] ->] ->] ->]. f_equal.
    destruct k1, k2; cbn in Hk; congruence.
  - intros E. injection E as -> -> -> -> -> -> -> ->.
    repeat split. now destruct k2.
Qed.

Lemma placeIn_nonneg (l : list Contact) (c : Contact) : 0 <= placeIn l c.
Proof.
  induction l as [|x xs IH]; cbn [placeIn]; [lia|].
  destruct (Contact_eqb x c); lia.
Qed.

Lemma placeIn_tail (x : Contact) (xs : list Contact) (c : Contact) :
  c <> x -> placeIn (x :: xs) c = 1 + placeIn xs c.
Proof.
  intros H. cbn [placeIn].
  destruct (Contact_eqb x c) eqn:E; [|reflexivity].
  apply Contact_eqb_eq in E. congruence.
Qed.

Lemma placeIn_head (x : Contact) (xs : list Contact) :
  placeIn (x :: xs) x = 0.
Proof.
  cbn [placeIn]. now rewrite (proj2 (Contact_eqb_eq x x) eq_refl).
Qed.

Lemma placeIn_inj (l : list Contact) (a b : Contact) :
  In a l -> In b l -> placeIn l a = placeIn l b -> a = b.
Proof.
  induction l as [|x xs IH]; intros Ha Hb E; [destruct Ha|].
  cbn [placeIn] in E.
  destruct (Contact_eqb x a) eqn:Ea, (Contact_eqb x b) eqn:Eb.
  - apply Contact_eqb_eq in Ea, Eb. congruence.
  - pose proof (placeIn_nonneg xs b). lia.
  - pose proof (placeIn_nonneg xs a). lia.
  - destruct Ha as [Ha|Ha];
      [apply Contact_eqb_eq in Ha; congruence|].
    destruct Hb as [Hb|Hb];
      [apply Contact_eqb_eq in Hb; congruence|].
    apply IH; [assumption | assumption | lia].
Qed.

Lemma ordered_impl (R R' : Contact -> Contact -> Prop) (l : list Contact) :
  (forall a b, In a l -> In b l -> R a b -> R' a b) ->
  ordered R l -> ordered R' l.
Proof.
  induction l as [|x xs IH]; intros H Ho; [exact I|].
  destruct Ho as [Hx Ho]. split.
  - intros y Hy. apply H; [now left | now right | now apply Hx].
  - apply IH; [|assumption]. intros a b Ha Hb. apply H; now right.
Qed.

Lemma ordered_placeIn (l : list Contact) :
  NoDup l -> ordered (fun a b => placeIn l a < placeIn l b) l.
Proof.
  induction l as [|x xs IH]; intros Hnd; [exact I|].
  apply NoDup_cons_iff in Hnd. destruct Hnd as [Hx Hnd].
  assert (Hne : forall y, In y xs -> y <> x) by (intros y Hy ->; auto).
  split.
  - intros y Hy. rewrite placeIn_head, (placeIn_tail x xs y (Hne y Hy)).
    pose proof (placeIn_nonneg xs y). lia.
  - apply (ordered_impl (fun a b => placeIn xs a < placeIn xs b));
      [|now apply IH].
    intros a b Ha Hb Hab.
    rewrite (placeIn_tail x xs a (Hne a Ha)),
      (placeIn_tail x xs b (Hne b Hb)). lia.
Qed.

Lemma fetchedBefore_total (rank : Contact -> Z) (a b : Contact) :
  fetchedBefore rank a b = false -> fetchedBefore rank b a = true.
Proof.
  unfold fetchedBefore. intros H. apply orb_false_iff in H.
  destruct H as [H1 H2]. apply Z.ltb_ge in H1.
  apply orb_true_iff.
  destruct (Z.eq_dec (createdAt a) (createdAt b)) as [E|E].
  - right. rewrite E, Z.eqb_refl in *. cbn in *. apply Z.leb_gt in H2.
    apply Z.leb_le. lia.
  - left. apply Z.ltb_lt. lia.
Qed.

Lemma fetchedBefore_trans (rank : Contact -> Z) (a b c : Contact) :
  fetchedBefore rank a b = true -> fetchedBefore rank b c = true ->
  fetchedBefore rank a c = true.
Proof.
  unfold fetchedBefore. rewrite !orb_true_iff, !andb_true_iff, !Z.ltb_lt,
    !Z.eqb_eq, !Z.leb_le. lia.
Qed.

Lemma insertByCreatedAt_ordered (rank : Contact -> Z) (c : Contact)
  (l : list Contact) :
  ordered (fun a b => fetchedBefore rank a b = true) l ->
  ordered (fun a b => fetchedBefore rank a b = true)
    (insertByCreatedAt rank c l).
Proof.
  induction l as [|x xs IH]; intros Ho; cbn [insertByCreatedAt].
  - split; [intros y []|exact I].
  - destruct Ho as [Hx Ho]. destruct (fetchedBefore rank c x) eqn:E.
    + split; [|split; assumption]. intros y [<-|Hy]; [assumption|].
      exact (fetchedBefore_trans rank c x y E (Hx y Hy)).
    + split; [|now apply IH]. intros y Hy.
      apply (Permutation_in _ (insertByCreatedAt_perm rank c xs)) in Hy.
      destruct Hy as [<-|Hy]; [now apply fetchedBefore_total | now apply Hx].
Qed.

(** Whatever the database makes of ties, the ordered fetch is sorted on
    [createdAt]. *)
Lemma orderByCreatedAt_ordered (rank : Contact -> Z) (l : list Contact) :
  ordered (fun a b => fetchedBefore rank a b = true)
    (orderByCreatedAt rank l).
Proof.
  induction l as [|x xs IH]; [exact I|].
  cbn [orderByCreatedAt fold_right]. now apply insertByCreatedAt_ordered.
Qed.

Lemma ordered_unique (R : Contact -> Contact -> Prop) (l1 : list Contact) :
  forall l2,
  (forall a b, In a l1 -> In b l1 -> R a b -> R b a -> a = b) ->
  Permutation l1 l2 -> ordered R l1 -> ordered R l2 -> l1 = l2.
Proof.
  induction l1 as [|x xs IH]; intros l2 Hanti Hp H1 H2.
  - apply Permutation_nil in Hp. now subst.
  - destruct l2 as [|y ys];
      [apply Permutation_sym, Permutation_nil in Hp; discriminate|].
    destruct H1 as [Hx H1], H2 as [Hy H2].
    assert (E : x = y).
    { assert (Hxin : In x (y :: ys))
        by (apply (Permutation_in _ Hp); now left).
      assert (Hyin : In y (x :: xs))
        by (apply (Permutation_in _ (Permutation_sym Hp)); now left).
      destruct Hxin as [E|Hxin]; [now symmetry|].
      destruct Hyin as [E|Hyin]; [assumption|].
      apply Hanti; [now left | now right | now apply Hx | now apply Hy]. }
    subst y. f_equal. apply IH; try assumption.
    + intros a b Ha Hb. apply Hanti; now right.
    + exact (Permutation_cons_inv Hp).
Qed.

Lemma ordered_by_rank (rank : Contact -> Z) (l : list Contact) :
  ordered (fun a b => createdAt a <= createdAt b) l ->
  ordered (fun a b => rank a < rank b) l ->
  ordered (fun a b => fetchedBefore rank a b = true) l.
Proof.
  induction l as [|x xs IH]; intros Hs Hpl; [exact I|].
  destruct Hs as [Hx Hs], Hpl as [Hxp Hpl]. split; [|now apply IH].
  intros y Hy. specialize (Hx y Hy). specialize (Hxp y Hy).
  unfold fetchedBefore.
  rewrite orb_true_iff, andb_true_iff, Z.ltb_lt, Z.eqb_eq, Z.leb_le. lia.
Qed.

(** The model leaves the order of ties open: every way of returning the
    rows sorted on [createdAt] is the ordered fetch of some database. *)
Lemma orderByCreatedAt_any_ties (l l' : list Contact) :
  NoDup l' -> Permutation l l' ->
  ordered (fun a b => createdAt a <= createdAt b) l' ->
  orderByCreatedAt (placeIn l') l = l'.
Proof.
  intros Hnd Hp Hs.
  set (R := fun a b => fetchedBefore (placeIn l') a b = true).
  assert (Hin : forall a, In a (orderByCreatedAt (placeIn l') l) -> In a l').
  { intros a Ha. apply (Permutation_in _ Hp).
    now apply -> orderByCreatedAt_In in Ha. }
  apply (ordered_unique R).
  - intros a b Ha Hb Hab Hba. unfold R, fetchedBefore in Hab, Hba.
    rewrite orb_true_iff, andb_true_iff, Z.ltb_lt, Z.eqb_eq, Z.leb_le
      in Hab, Hba.
    apply (placeIn_inj l'); [now apply Hin | now apply Hin | lia].
  - rewrite orderByCreatedAt_perm. exact Hp.
  - apply orderByCreatedAt_ordered.
  - apply ordered_by_rank; [assumption | now apply ordered_placeIn].
Qed.

(** ** Step 1: which records a request matches *)

Lemma matchWhere_spec (e p : option string) (c : Contact) :
  matchWhere e p c
  = live c && ((truthy_str e && col_eq (email c) e)
               || (truthy_str p && col_eq (phoneNumber c) p)).
Proof.
  unfold matchWhere, orClauses, live, col_eq. f_equal.
  destruct e as [ev|], p as [pv|]; cbn [truthy_str];
    repeat match goal with
           | |- context [negb (String.eqb ?s EmptyString)] =>
               destruct (negb (String.eqb s EmptyString))
           end; cbn; rewrite ?orb_false_r; reflexivity.
Qed.



(** ** Requests with nothing given, and requests that match nothing *)

(** C9.  A request in which both [email] and [phoneNumber] are absent
    (missing, [null], empty, or any other falsy value) is answered with
    status 400 (invalid input) by the route handler, and the database is
    exactly as it was: no round trip was made (the log of calls is part of
    the state), no record created, nothing changed. *)
Theorem invalid_input_rejected_before_store (body : Body) (d : Db) :
  absent (body_email body) = true ->
  absent (body_phoneNumber body) = true ->
  identifyRouter body d = (Status400, d).
Proof.
  unfold absent, identifyRouter. intros -> ->. reflexivity.
Qed.

Lemma invalid_input_rejected_before_store_witness :
  identifyRouter (mkBody JsUndefined (JsString EmptyString)) db_hill
  = (Status400, db_hill).
Proof.
  apply invalid_input_rejected_before_store; reflexivity.
Defined.



(** ** Step 3: resolving the roots *)

Lemma rootWhere_spec (ms : list Contact) (c : Contact) :
  rootWhere (rootIds ms) c = true
  <-> live c = true /\ exists m, In m ms /\ rootOf m = Some (id c).
Proof.
  unfold rootWhere, live. rewrite andb_true_iff, includes_num_In, rootIds_In.
  tauto.
Qed.

Lemma roots_In (e p : option string) (d : Db) (c : Contact) :
  In c (roots e p d)
  <-> In c (rows d) /\ live c = true
      /\ exists m, In m (matching e p d) /\ rootOf m = Some (id c).
Proof.
  unfold roots. rewrite orderByCreatedAt_In, filter_In, rootWhere_spec.
  tauto.
Qed.

(** The root fetch comes back empty exactly when no matched record
    resolves. *)
Lemma roots_nil_iff (e p : option string) (d : Db) :
  roots e p d = [] <-> forallb (unresolved d) (matching e p d) = true.
Proof.
  rewrite forallb_forall. split.
  - intros Hnil m Hm.
    assert (Hnone : forall c, ~ In c (roots e p d))
      by (intros c; rewrite Hnil; intros []).
    assert (Hlive : In m (rows d) /\ live m = true).
    { unfold matching in Hm. apply filter_In in Hm. destruct Hm as [Hin Hw].
      rewrite matchWhere_spec in Hw. apply andb_true_iff in Hw. tauto. }
    unfold unresolved. destruct (linkPrecedence m) eqn:Ep.
    + exfalso. apply (Hnone m), roots_In. repeat split; try tauto.
      exists m. split; [assumption|]. unfold rootOf. now rewrite Ep.
    + destruct (truthy_num (linkedId m)) eqn:Et; [|reflexivity]. cbn.
      apply negb_true_iff.
      destruct (existsb _ (rows d)) eqn:Ex; [exfalso|reflexivity].
      apply existsb_exists in Ex. destruct Ex as [c [Hc Hx]].
      apply andb_true_iff in Hx. destruct Hx as [Hl Hlv].
      apply (Hnone c), roots_In. repeat split; try assumption.
      exists m. split; [assumption|]. unfold rootOf. rewrite Ep, Et.
      unfold col_num_is in Hl. destruct (linkedId m) as [l|]; [|discriminate].
      apply Z.eqb_eq in Hl. now subst.
  - intros Hall. destruct (roots e p d) as [|c cs] eqn:Er; [reflexivity|].
    exfalso. assert (Hc : In c (roots e p d)) by (rewrite Er; now left).
    apply roots_In in Hc. destruct Hc as [Hin [Hlv [m [Hm Hr]]]].
    specialize (Hall m Hm). unfold unresolved, rootOf in *.
    destruct (linkPrecedence m); [discriminate|].
    destruct (truthy_num (linkedId m)); [|discriminate]. cbn in Hall.
    apply negb_true_iff in Hall.
    assert (Hex : existsb (fun c0 => col_num_is (linkedId m) (id c0)
                                     && live c0) (rows d) = true).
    { apply existsb_exists. exists c. split; [assumption|].
      rewrite Hr, Hlv. cbn. now rewrite Z.eqb_refl. }
    congruence.
Qed.

(** C10.  With the database up, [identifyContact] throws a [TypeError]
    (reading [.id] of the undefined [primaryContacts[0]]) exactly when the
    request matches some record and every matched record is a secondary
    whose [linkedId] is null or names no non-deleted record; the table is
    then as it was.  So the read is safe when a matched record resolves to
    an existing non-deleted root. *)
Theorem undefined_true_primary (e p : option string) (d : Db) :
  outage d = None ->
  (fst (identifyContact e p d) = Throw TypeError
   <-> matching e p d <> []
       /\ forallb (unresolved d) (matching e p d) = true)
  /\ (fst (identifyContact e p d) = Throw TypeError ->
      rows (snd (identifyContact e p d)) = rows d).
Proof.
  intros Hup. rewrite <- roots_nil_iff.
  destruct (matching e p d) as [|m ms] eqn:Em.
  - rewrite (identifyContact_no_match e p d Hup Em). cbn.
    split; [split|]; [discriminate | intros [H _]; congruence | discriminate].
  - assert (Hne : matching e p d <> []) by (rewrite Em; discriminate).
    destruct (roots e p d) as [|tp rest] eqn:Er.
    + rewrite (identifyContact_no_root e p d Hup Hne Er). cbn.
      split; [split|]; try reflexivity. intros _. split; [discriminate|].
      reflexivity.
    + rewrite (identifyContact_group e p d tp rest Hup Hne Er). cbv zeta.
      destruct (hasNewInfo e p tp _); cbn;
        (split; [split|]; [discriminate | intros [_ H]; discriminate
                          | discriminate]).
Qed.

Lemma undefined_true_primary_witness :
  fst (identifyContact (Some "doc@hillvalley.edu"%string) None db_orphan)
  = Throw TypeError.
Proof.
  apply (undefined_true_primary (Some "doc@hillvalley.edu"%string) None
           db_orphan); [reflexivity|].
  split; [discriminate | reflexivity].
Defined.

(** ** [buildResponse] *)

Lemma skipSeen_ext (vals : list (option string)) :
  forall seen seen',
  (forall x, In x seen <-> In x seen') ->
  skipSeen seen vals = skipSeen seen' vals.
Proof.
  induction vals as [|[s|] vs IH]; intros seen seen' H; cbn [skipSeen];
    [reflexivity| |now apply IH].
  assert (E : includes_str seen s = includes_str seen' s).
  { destruct (includes_str seen s) eqn:E1, (includes_str seen' s) eqn:E2;
      try reflexivity.
    - apply includes_str_In, H, includes_str_In in E1. congruence.
    - apply includes_str_In, H, includes_str_In in E2. congruence. }
  rewrite E. destruct (truthy_str (Some s) && negb (includes_str seen' s)).
  - f_equal. apply IH. intros x. simpl. now rewrite H.
  - now apply IH.
Qed.

(** The [push]/[includes] loop computes the specification's list. *)
Lemma pushNew_skipSeen (f : Contact -> option string)
  (secs : list Contact) :
  forall acc,
  fold_left (pushNew f) secs acc = acc ++ skipSeen acc (map f secs).
Proof.
  induction secs as [|s secs IH]; intros acc; cbn [fold_left map skipSeen].
  - now rewrite app_nil_r.
  - rewrite IH. unfold pushNew. destruct (f s) as [v|]; [|reflexivity].
    destruct (truthy_str (Some v) && negb (includes_str acc v));
      [|reflexivity].
    rewrite <- app_assoc. cbn [app]. do 2 f_equal. apply skipSeen_ext.
    intros x. rewrite in_app_iff. simpl. tauto.
Qed.

Lemma collect_listed (f : Contact -> option string) (prim : Contact)
  (secs : list Contact) :
  collect f prim secs = listed f prim secs.
Proof.
  unfold collect, listed. rewrite pushNew_skipSeen.
  cbn [map skipSeen]. destruct (f prim) as [v|]; [|reflexivity].
  destruct (truthy_str (Some v)); reflexivity.
Qed.

Lemma skipSeen_fresh (vals : list (option string)) :
  forall seen x, In x (skipSeen seen vals) ->
  ~ In x seen /\ x <> EmptyString.
Proof.
  induction vals as [|[s|] vs IH]; intros seen x H; cbn [skipSeen] in H;
    [destruct H| |now apply IH].
  destruct (truthy_str (Some s)) eqn:Et; cbn [andb] in H;
    [|now apply IH].
  destruct (includes_str seen s) eqn:Ei; cbn [negb] in H; [now apply IH|].
  destruct H as [<-|H].
  - split.
    + intros Hin. apply includes_str_In in Hin. congruence.
    + intros ->. discriminate Et.
  - apply IH in H. simpl in H. tauto.
Qed.

Lemma skipSeen_NoDup (vals : list (option string)) :
  forall seen, NoDup (skipSeen seen vals).
Proof.
  induction vals as [|[s|] vs IH]; intros seen; cbn [skipSeen];
    [constructor| |apply IH].
  destruct (truthy_str (Some s) && negb (includes_str seen s)); [|apply IH].
  constructor; [|apply IH]. intros H. apply skipSeen_fresh in H.
  simpl in H. tauto.
Qed.

Lemma listed_head (f : Contact -> option string) (prim : Contact)
  (secs : list Contact) (v : string) :
  f prim = Some v -> v <> EmptyString ->
  hd_error (listed f prim secs) = Some v.
Proof.
  intros E Hv. unfold listed. cbn [map skipSeen]. rewrite E.
  cbn. destruct (String.eqb v EmptyString) eqn:Ev; [|reflexivity].
  apply String.eqb_eq in Ev. contradiction.
Qed.

(** Every call that completes answers with [buildResponse] of the group
    it materialized. *)
Lemma completed_materialized (e p : option string) (d : Db)
  (r : ContactResponse) (d' : Db) :
  identifyContact e p d = (Ok r, d') ->
  exists prim secs,
    materialized e p d = Some (prim, secs) /\ r = buildResponse prim secs.
Proof.
  intros H. unfold materialized.
  destruct (completed_cases e p d r d' H)
    as [[Hm [Hr _]] | [tp [rest [Hm [Hroots Hc]]]]].
  - rewrite Hm. eauto.
  - destruct (matching e p d); [congruence|]. rewrite Hroots. cbv zeta.
    destruct Hc as [[Hn [Hr _]] | [Hn [Hr _]]]; rewrite Hn; eauto.
Qed.

Lemma skipSeen_skipNulls (vals : list (option string)) :
  forall seen,
  (forall v, In v vals -> v <> Some EmptyString) ->
  skipSeen seen vals = skipNulls seen vals.
Proof.
  induction vals as [|[s|] vs IH]; intros seen H; cbn [skipSeen skipNulls];
    [reflexivity| |apply IH; intros v Hv; apply H; now right].
  assert (Hs : truthy_str (Some s) = true).
  { cbn. apply negb_true_iff, String.eqb_neq. intros ->.
    apply (H (Some EmptyString)); [now left | reflexivity]. }
  rewrite Hs. cbn [andb].
  destruct (includes_str seen s); cbn [negb]; [|f_equal];
    apply IH; intros v Hv; apply H; now right.
Qed.

Lemma listed_listedNonNull (f : Contact -> option string) (prim : Contact)
  (secs : list Contact) :
  (forall c, In c (prim :: secs) -> f c <> Some EmptyString) ->
  listed f prim secs = listedNonNull f prim secs.
Proof.
  intros H. unfold listed, listedNonNull. apply skipSeen_skipNulls.
  intros v Hv. apply in_map_iff in Hv. destruct Hv as [c [<- Hc]].
  now apply H.
Qed.

(** C7, as the code has it.  In every answer, [emails] is the primary's
    email followed by the secondaries' emails, in the order in which the
    secondaries were fetched -- the order of [secondaryContactIds] --
    skipping nulls, empty strings and values already listed;
    [phoneNumbers] likewise.  The primary's value, when it has one that is
    not empty, comes first; no value occurs twice and no entry is empty (a
    null cannot occur in a list of strings).  When no record of the group
    holds an empty string, the lists are the specification's, to the
    letter. *)
Theorem response_lists_ordered_distinct (e p : option string) (d : Db)
  (r : ContactResponse) (d' : Db) :
  identifyContact e p d = (Ok r, d') ->
  exists prim secs,
    materialized e p d = Some (prim, secs)
    /\ primaryContatctId r = id prim
    /\ secondaryContactIds r = map id secs
    /\ emails r = listed email prim secs
    /\ phoneNumbers r = listed phoneNumber prim secs
    /\ (forall v, email prim = Some v -> v <> EmptyString ->
        hd_error (emails r) = Some v)
    /\ (forall v, phoneNumber prim = Some v -> v <> EmptyString ->
        hd_error (phoneNumbers r) = Some v)
    /\ NoDup (emails r) /\ NoDup (phoneNumbers r)
    /\ ~ In EmptyString (emails r) /\ ~ In EmptyString (phoneNumbers r)
    /\ ((forall c, In c (prim :: secs) -> email c <> Some EmptyString) ->
        emails r = listedNonNull email prim secs)
    /\ ((forall c, In c (prim :: secs) ->
           phoneNumber c <> Some EmptyString) ->
        phoneNumbers r = listedNonNull phoneNumber prim secs).
Proof.
  intros H. destruct (completed_materialized e p d r d' H)
    as [prim [secs [Hmat ->]]].
  exists prim, secs. cbn [buildResponse primaryContatctId emails
                            phoneNumbers secondaryContactIds].
  rewrite !collect_listed.
  repeat split; try assumption; try apply skipSeen_NoDup.
  - intros v. apply listed_head.
  - intros v. apply listed_head.
  - intros Hin. apply skipSeen_fresh in Hin. tauto.
  - intros Hin. apply skipSeen_fresh in Hin. tauto.
  - apply listed_listedNonNull.
  - apply listed_listedNonNull.
Qed.

Lemma response_lists_ordered_distinct_witness :
  exists prim secs,
    materialized (Some "doc@hillvalley.edu"%string)
      (Some "5550100"%string) db_four = Some (prim, secs)
    /\ [4; 2; 3] = map id secs
    /\ ["doc@hillvalley.edu"%string] = listed email prim secs
    /\ ["5550142"%string; "5550100"%string; "5550199"%string]
       = listed phoneNumber prim secs.
Proof.
  destruct (response_lists_ordered_distinct
              (Some "doc@hillvalley.edu"%string) (Some "5550100"%string)
              db_four
              (mkResponse 1 ["doc@hillvalley.edu"%string]
                 ["5550142"%string; "5550100"%string; "5550199"%string]
                 [4; 2; 3])
              (snd (identifyContact (Some "doc@hillvalley.edu"%string)
                      (Some "5550100"%string) db_four))
              eq_refl)
    as [prim [secs [H1 [_ [H3 [H4 [H5 _]]]]]]].
  exists prim, secs. repeat split; assumption.
Defined.

(** C7 as claimed fails on [db_array], the table the service itself builds
    from the body [{ "email": [], "phoneNumber": "5550100" }]: the primary
    holds an email that is not null -- the empty string -- and the answer
    to a request for its phone lists no email at all, where the
    specification's list holds that email first. *)
Lemma empty_string_not_listed_counterexample :
  rows db_array
  = [mkContact 1 (Some "5550100"%string) (Some EmptyString) None primary 0
       0 None]
  /\ exists r d' prim secs,
       identifyContact None (Some "5550100"%string) db_array = (Ok r, d')
       /\ materialized None (Some "5550100"%string) db_array
          = Some (prim, secs)
       /\ email prim = Some EmptyString
       /\ emails r = []
       /\ listedNonNull email prim secs = [EmptyString]
       /\ emails r <> listedNonNull email prim secs.
Proof.
  split; [reflexivity|].
  eexists. eexists. eexists. eexists.
  split; [vm_compute; reflexivity|].
  split; [vm_compute; reflexivity|].
  split; [reflexivity|]. split; [reflexivity|].
  split; [reflexivity | discriminate].
Qed.

(** ** The merge, row by row *)

Lemma mergeRow_cons (tp now : Z) (q : Contact) (ids : list Z)
  (c : Contact) :
  mergeRow tp now ids
    (let c1 := if id c =? id q then demote tp now c else c in
     if linkedWhere (id q) c1 then relink tp c1 else c1)
  = mergeRow tp now (id q :: ids) c.
Proof.
  destruct c as [i ph em l lp ca ua da].
  unfold mergeRow, linkedToAny, linkedWhere, col_num_is, live, demote,
    relink, includes_num, is_null. cbv zeta.
  cbn [id phoneNumber email linkedId linkPrecedence createdAt updatedAt
       deletedAt existsb].
  destruct (i =? id q) eqn:E1, l as [l|], da as [da|];
    cbn [andb orb id phoneNumber email linkedId linkPrecedence createdAt
         updatedAt deletedAt];
    rewrite ?andb_true_r, ?andb_false_r;
    repeat match goal with
           | |- context [if ?b then _ else _] =>
               destruct b eqn:?;
               cbn [andb orb id phoneNumber email linkedId linkPrecedence
                    createdAt updatedAt deletedAt] in *
           end;
    try reflexivity; try discriminate.
Qed.

(** A write moves the rows it rewrites behind the others; row by row, it
    applies [data] where [where_] holds. *)
Lemma rewritten_perm (w : Contact -> bool) (f : Contact -> Contact)
  (rs : list Contact) :
  Permutation (rewritten w f rs) (map (fun c => if w c then f c else c) rs).
Proof.
  unfold rewritten. induction rs as [|c rs IH]; cbn; [constructor|].
  destruct (w c); cbn.
  - rewrite <- IH. symmetry. apply Permutation_middle.
  - now constructor.
Qed.

Lemma mergeStep_perm (tp now : Z) (rs : list Contact) (q : Contact) :
  Permutation (mergeStep tp now rs q)
    (map (fun c => let c1 := if id c =? id q then demote tp now c else c in
                   if linkedWhere (id q) c1 then relink tp c1 else c1) rs).
Proof.
  unfold mergeStep, relinkStep, demoteStep.
  rewrite rewritten_perm, (rewritten_perm _ _ rs), map_map. reflexivity.
Qed.

(** The merge in closed form: up to the order of the rows, it applies
    [mergeRow] to each. *)
Lemma mergeRows_perm (tp now : Z) (ps : list Contact) :
  forall rs,
  Permutation (mergeRows tp now ps rs)
    (map (mergeRow tp now (map id ps)) rs).
Proof.
  induction ps as [|q ps IH]; intros rs; cbn [mergeRows fold_left map].
  - rewrite (map_ext (mergeRow tp now []) (fun c => c)), map_id;
      [reflexivity|].
    intros c. unfold mergeRow, linkedToAny. cbn.
    destruct (linkedId c); now rewrite andb_false_r.
  - fold (mergeRows tp now ps (mergeStep tp now rs q)). rewrite IH.
    rewrite (mergeStep_perm tp now rs q), map_map.
    erewrite map_ext; [reflexivity|]. intros c.
    apply (mergeRow_cons tp now q (map id ps) c).
Qed.

(** On the example tables: the merge of [db_four] leaves record 4 where
    it was and returns the demoted root and its secondary after it; cut
    after the demotion, the merge of [db_two_cut] leaves the demoted root
    last. *)
Lemma merge_moves_rewritten_rows :
  map id (rows (snd (identifyContact (Some "doc@hillvalley.edu"%string)
                       (Some "5550100"%string) db_four)))
  = [1; 4; 2; 3]
  /\ map id (rows (snd (identifyContact (Some "doc@hillvalley.edu"%string)
                          (Some "5550100"%string) db_two_cut)))
     = [1; 3; 2].
Proof. split; reflexivity. Qed.

Lemma mergeRows_length (tp now : Z) (ps : list Contact) (rs : list Contact) :
  List.length (mergeRows tp now ps rs) = List.length rs.
Proof.
  rewrite (Permutation_length (mergeRows_perm tp now ps rs)).
  apply length_map.
Qed.

Lemma no_link_to_next (d : Db) :
  links_issued d = true -> filter (linkedWhere (nextId d)) (rows d) = [].
Proof.
  unfold links_issued. intros H. induction (rows d) as [|c rs IH];
    [reflexivity|].
  cbn in H |- *. apply andb_true_iff in H. destruct H as [Hc Hrs].
  rewrite (IH Hrs). unfold linkedWhere, col_num_is.
  destruct (linkedId c) as [l|]; [|reflexivity].
  apply Z.ltb_lt in Hc. replace (l =? nextId d) with false; [reflexivity|].
  symmetry. apply Z.eqb_neq. lia.
Qed.

(** C8.  In every answer, [secondaryContactIds] lists the ids of all the
    non-deleted records linked to the true primary in the table the call
    leaves, in the order the database returns them (which, after a merge,
    is not the order of their ids: the rows the merge rewrote come after
    the others): first those among the records that existed before the
    call, as the merge left them, then the secondary the call created, if
    it created one. *)
Theorem secondary_ids_materialization_order (e p : option string) (d : Db)
  (r : ContactResponse) (d' : Db) :
  links_issued d = true ->
  identifyContact e p d = (Ok r, d') ->
  secondaryContactIds r
  = map id (filter (linkedWhere (primaryContatctId r)) (rows d'))
  /\ exists pre created,
       rows d' = pre ++ created
       /\ List.length pre = List.length (rows d)
       /\ secondaryContactIds r
          = map id (filter (linkedWhere (primaryContatctId r)) pre)
            ++ map id (filter is_secondary created).
Proof.
  intros Hl H.
  destruct (completed_cases e p d r d' H)
    as [[Hm [-> [-> _]]]
       | [tp [rest [Hm [Hroots [[Hn [-> [-> _]]] | [Hn [-> [-> _]]]]]]]]];
    cbn [buildResponse secondaryContactIds primaryContatctId].
  - cbn [newRow id]. rewrite filter_app, (no_link_to_next d Hl). split.
    + reflexivity.
    + exists (rows d), [newRow e p primary None d].
      rewrite (no_link_to_next d Hl). auto.
  - assert (Hc : filter (linkedWhere (id tp))
                   [newRow e p secondary (Some (id tp)) d]
                 = [newRow e p secondary (Some (id tp)) d]).
    { cbn. unfold linkedWhere. cbn. now rewrite Z.eqb_refl. }
    rewrite filter_app, Hc. fold (fetchedSecondaries tp rest d). split.
    + reflexivity.
    + exists (merged tp rest d), [newRow e p secondary (Some (id tp)) d].
      split; [reflexivity|]. split; [apply mergeRows_length|].
      fold (fetchedSecondaries tp rest d). now rewrite map_app.
  - fold (fetchedSecondaries tp rest d). split; [reflexivity|].
    exists (merged tp rest d), []. rewrite app_nil_r.
    split; [reflexivity|]. split; [apply mergeRows_length|].
    fold (fetchedSecondaries tp rest d). cbn. now rewrite app_nil_r.
Qed.

Lemma secondary_ids_materialization_order_witness :
  [4; 2; 3]
  = map id (filter (linkedWhere 1)
      (rows (snd (identifyContact (Some "doc@hillvalley.edu"%string)
                    (Some "5550100"%string) db_four)))).
Proof.
  apply (secondary_ids_materialization_order
           (Some "doc@hillvalley.edu"%string) (Some "5550100"%string)
           db_four
           (mkResponse 1 ["doc@hillvalley.edu"%string]
              ["5550142"%string; "5550100"%string; "5550199"%string]
              [4; 2; 3])
           (snd (identifyContact (Some "doc@hillvalley.edu"%string)
                   (Some "5550100"%string) db_four)));
    reflexivity.
Defined.

Lemma roots_matching (e p : option string) (d : Db) (tp : Contact)
  (rest : list Contact) :
  roots e p d = tp :: rest -> matching e p d <> [].
Proof.
  intros Hr Hm. assert (H : In tp (roots e p d)) by (rewrite Hr; now left).
  apply roots_In in H. destruct H as [_ [_ [m [Hin _]]]].
  rewrite Hm in Hin. destruct Hin.
Qed.

Lemma mergeRow_id (tp now : Z) (ids : list Z) (c : Contact) :
  id (mergeRow tp now ids c) = id c.
Proof.
  unfold mergeRow. destruct (includes_num ids (id c)); [reflexivity|].
  destruct (linkedToAny ids c); reflexivity.
Qed.

Lemma merged_perm (tp : Contact) (rest : list Contact) (d : Db) :
  Permutation (merged tp rest d)
    (map (mergeRow (id tp) (clock d) (map id rest)) (rows d)).
Proof. apply mergeRows_perm. Qed.

Lemma merged_In (tp : Contact) (rest : list Contact) (d : Db)
  (c' : Contact) :
  In c' (merged tp rest d)
  <-> exists c, In c (rows d)
                /\ c' = mergeRow (id tp) (clock d) (map id rest) c.
Proof.
  split.
  - intros H. apply (Permutation_in _ (merged_perm tp rest d)) in H.
    apply in_map_iff in H. destruct H as [c [H1 H2]]. eauto.
  - intros [c [H1 ->]].
    apply (Permutation_in _ (Permutation_sym (merged_perm tp rest d))).
    now apply in_map.
Qed.

(** Every record that carries the id of a root other than the true
    primary ends up [secondary] and linked to the true primary. *)
Lemma merged_demotes (tp : Contact) (rest : list Contact) (d : Db)
  (q c : Contact) :
  In q rest -> In c (merged tp rest d) -> id c = id q ->
  linkPrecedence c = secondary /\ linkedId c = Some (id tp).
Proof.
  intros Hq Hc Hid. apply merged_In in Hc. destruct Hc as [c0 [_ ->]].
  rewrite mergeRow_id in Hid. unfold mergeRow.
  replace (includes_num (map id rest) (id c0)) with true; [auto|].
  symmetry. apply includes_num_In. rewrite Hid. now apply in_map.
Qed.

(** The roots of a request, said without the fetch: the records step 3
    fetches are the non-deleted records that are the root of a record
    carrying a value the request gives. *)
Lemma requestRoot_roots (e p : option string) (d : Db) (q : Contact) :
  In q (rows d) ->
  (requestRoot e p d q = true <-> In q (roots e p d)).
Proof.
  intros Hq. unfold requestRoot.
  rewrite andb_true_iff, existsb_exists, roots_In. split.
  - intros [Hl [m [Hm Hx]]]. apply andb_true_iff in Hx.
    destruct Hx as [Hc Hr]. split; [assumption|]. split; [assumption|].
    exists m. split.
    + unfold matching. apply filter_In. split; [assumption|].
      now rewrite matchWhere_spec.
    + destruct (rootOf m) as [x|]; [|discriminate].
      apply Z.eqb_eq in Hr. now subst.
  - intros [_ [Hl [m [Hm Hr]]]]. split; [assumption|].
    unfold matching in Hm. apply filter_In in Hm. destruct Hm as [Hm Hw].
    exists m. split; [assumption|]. rewrite matchWhere_spec in Hw.
    unfold carries. rewrite Hw, Hr. cbn. apply Z.eqb_refl.
Qed.

(** C1, as the code has it.  With the database up, when the request has
    two roots with different ids, the call completes and: the true primary
    is a root of the request with the earliest [createdAt] (which one, when
    several roots share it, is the database's choice: nothing is said of
    it); every other root is in the table afterwards, [secondary] and
    linked to the true primary; and [primaryContatctId] is the true
    primary's id. *)
Theorem oldest_root_wins (e p : option string) (d : Db) (q1 q2 : Contact) :
  outage d = None ->
  In q1 (rows d) -> requestRoot e p d q1 = true ->
  In q2 (rows d) -> requestRoot e p d q2 = true ->
  id q1 <> id q2 ->
  exists r d' tp,
    identifyContact e p d = (Ok r, d')
    /\ In tp (rows d) /\ requestRoot e p d tp = true
    /\ primaryContatctId r = id tp
    /\ (forall q, In q (rows d) -> requestRoot e p d q = true ->
        createdAt tp <= createdAt q)
    /\ (forall q, In q (rows d) -> requestRoot e p d q = true -> q <> tp ->
        (exists c, In c (rows d') /\ id c = id q)
        /\ forall c, In c (rows d') -> id c = id q ->
             linkPrecedence c = secondary /\ linkedId c = Some (id tp)).
Proof.
  intros Hup Hq1 Hr1 Hq2 Hr2 Hne.
  apply (requestRoot_roots e p d q1 Hq1) in Hr1.
  apply (requestRoot_roots e p d q2 Hq2) in Hr2.
  destruct (roots e p d) as [|tp rest] eqn:Hroots; [destruct Hr1|].
  pose proof (roots_matching e p d tp rest Hroots) as Hm.
  assert (Htp : In tp (roots e p d)) by (rewrite Hroots; now left).
  pose proof Htp as Htprow. apply roots_In in Htprow.
  destruct Htprow as [Htprow _].
  assert (Hold : forall q, In q (rows d) -> requestRoot e p d q = true ->
                           createdAt tp <= createdAt q).
  { intros q Hq Hr. apply (requestRoot_roots e p d q Hq) in Hr.
    unfold roots in Hr, Hroots. apply -> orderByCreatedAt_In in Hr.
    exact (orderByCreatedAt_oldest _ _ _ _ Hroots q Hr). }
  assert (Hrest : forall q, In q (rows d) -> requestRoot e p d q = true ->
                            q <> tp -> In q rest).
  { intros q Hq Hr Hqtp. apply (requestRoot_roots e p d q Hq) in Hr.
    rewrite Hroots in Hr. destruct Hr as [Hr|Hr]; [|assumption].
    now elim Hqtp. }
  assert (Hex : forall q, In q (rows d) ->
                  exists c, In c (merged tp rest d) /\ id c = id q).
  { intros q Hq.
    exists (mergeRow (id tp) (clock d) (map id rest) q). split.
    - apply merged_In. exists q. auto.
    - apply mergeRow_id. }
  apply (requestRoot_roots e p d tp Htprow) in Htp.
  rewrite (identifyContact_group e p d tp rest Hup Hm Hroots). cbv zeta.
  destruct (hasNewInfo e p tp (fetchedSecondaries tp rest d));
    eexists; eexists; exists tp; (split; [reflexivity|]);
    cbn [buildResponse primaryContatctId rows];
    (split; [exact Htprow|]); (split; [exact Htp|]);
    (split; [reflexivity|]); (split; [exact Hold|]);
    intros q Hq Hr Hqtp; pose proof (Hrest q Hq Hr Hqtp) as Hin; split.
  - destruct (Hex q Hq) as [c [Hc Hid]]. exists c.
    rewrite in_app_iff. auto.
  - intros c Hc Hid. apply in_app_or in Hc. destruct Hc as [Hc|[<-|[]]].
    + exact (merged_demotes tp rest d q c Hin Hc Hid).
    + cbn. auto.
  - exact (Hex q Hq).
  - intros c Hc Hid. exact (merged_demotes tp rest d q c Hin Hc Hid).
Qed.

Lemma oldest_root_wins_witness :
  exists r d' tp,
    identifyContact (Some "doc@hillvalley.edu"%string)
      (Some "5550100"%string) db_two = (Ok r, d')
    /\ In tp (rows db_two)
    /\ requestRoot (Some "doc@hillvalley.edu"%string)
         (Some "5550100"%string) db_two tp = true
    /\ primaryContatctId r = id tp.
Proof.
  destruct (oldest_root_wins (Some "doc@hillvalley.edu"%string)
              (Some "5550100"%string) db_two
              (mkContact 1 None (Some "doc@hillvalley.edu"%string) None
                 primary 10 10 None)
              (mkContact 2 (Some "5550100"%string) None None primary 20 20
                 None)
              eq_refl (or_introl eq_refl) eq_refl
              (or_intror (or_introl eq_refl)) eq_refl
              ltac:(discriminate))
    as [r [d' [tp [H1 [H2 [H3 [H4 _]]]]]]].
  exists r, d', tp. auto.
Defined.

(** C1 as claimed fails on [db_tie]: the two roots share [createdAt], the
    lower id is 1, and the call answers with primary 2. *)
Lemma oldest_root_tie_counterexample :
  ~ (forall r d',
       identifyContact (Some "doc@hillvalley.edu"%string)
         (Some "5550100"%string) db_tie = (Ok r, d') ->
       exists tp,
         oldest_lowest_id
           (roots (Some "doc@hillvalley.edu"%string)
              (Some "5550100"%string) db_tie) tp
         /\ primaryContatctId r = id tp).
Proof.
  intros H.
  destruct (H _ _ eq_refl) as [tp [[Hin Hmin] Hid]].
  cbn in Hid.
  specialize (Hmin (mkContact 1 (Some "5550100"%string) None None primary
                      10 10 None)).
  cbn in Hin, Hmin.
  destruct Hin as [<-|[<-|[]]]; cbn in Hid; try discriminate.
  destruct Hmin as [Hlt|[_ Hle]]; [now right; left | |];
    cbn in *; lia.
Qed.

(** Which root wins a tie is the database's doing: the same rows, in a
    database that returns the lower id first, give the other primary. *)
Lemma tie_is_left_to_the_database :
  (exists r d',
     identifyContact (Some "doc@hillvalley.edu"%string)
       (Some "5550100"%string) db_tie = (Ok r, d')
     /\ primaryContatctId r = 2)
  /\ (exists r d',
        identifyContact (Some "doc@hillvalley.edu"%string)
          (Some "5550100"%string) db_tie_low = (Ok r, d')
        /\ primaryContatctId r = 1).
Proof.
  split; eexists; eexists; (split; [vm_compute; reflexivity | reflexivity]).
Qed.

(** ** Step 5: the novelty check *)

Lemma fold_set_add_str_In (l : list string) :
  forall s x, In x (fold_left set_add_str l s) <-> In x s \/ In x l.
Proof.
  induction l as [|v l IH]; intros s x; cbn [fold_left].
  - simpl. tauto.
  - rewrite IH. unfold set_add_str.
    destruct (includes_str s v) eqn:E; simpl.
    + apply includes_str_In in E. intuition (subst; auto).
    + rewrite in_app_iff. simpl. tauto.
Qed.

Lemma set_of_strs_In (l : list string) (x : string) :
  In x (set_of_strs l) <-> In x l.
Proof. unfold set_of_strs. rewrite fold_set_add_str_In. simpl. tauto. Qed.

Lemma truthy_values_In (f : Contact -> option string) (l : list Contact)
  (x : string) :
  In x (truthy_values f l)
  <-> x <> EmptyString /\ exists c, In c l /\ f c = Some x.
Proof.
  unfold truthy_values. rewrite in_flat_map. split.
  - intros [c [Hc Hx]]. destruct (f c) as [s|] eqn:E; [|destruct Hx].
    cbn in Hx. destruct (String.eqb s EmptyString) eqn:Es; cbn in Hx;
      [destruct Hx|].
    destruct Hx as [<-|[]]. apply String.eqb_neq in Es. eauto.
  - intros [Hx [c [Hc E]]]. exists c. split; [assumption|]. rewrite E.
    cbn. apply String.eqb_neq in Hx. rewrite Hx. now left.
Qed.

(** The code's test [v && !all.has(v)] says: given, and on no record of
    the group. *)
Lemma isNew_unseen (f : Contact -> option string) (v : option string)
  (group : list Contact) :
  isNew v (set_of_strs (truthy_values f group))
  = truthy_str v && unseen f v group.
Proof.
  unfold isNew, unseen. destruct v as [s|]; [|reflexivity].
  destruct (truthy_str (Some s)) eqn:Et; [|reflexivity].
  cbn [andb]. f_equal. apply Bool.eq_iff_eq_true.
  rewrite includes_str_In, set_of_strs_In, truthy_values_In, existsb_exists.
  split.
  - intros [_ [c [Hc E]]]. exists c. split; [assumption|]. rewrite E.
    apply String.eqb_refl.
  - intros [c [Hc E]]. split; [intros ->; discriminate Et|]. exists c.
    split; [assumption|]. unfold col_str_is in E.
    destruct (f c) as [s'|]; [|discriminate].
    apply String.eqb_eq in E. now subst.
Qed.

(** C4, as the code has it.  With the database up, a request that
    resolves a group (so it matches some record) creates exactly one
    record -- a [secondary] holding the email and phone as given, linked
    to the true primary -- if the email is given (not null and not empty)
    and on no record of the group, or the phone is given and on no record
    of the group; otherwise it creates none.  The records that existed
    before are all still there (as the merge left them). *)
Theorem secondary_created_iff_new_info (e p : option string) (d : Db)
  (tp : Contact) (rest : list Contact) :
  outage d = None ->
  roots e p d = tp :: rest ->
  exists r d',
    identifyContact e p d = (Ok r, d')
    /\ rows d'
       = merged tp rest d
         ++ (if (truthy_str e
                 && unseen email e (tp :: fetchedSecondaries tp rest d))
                || (truthy_str p
                    && unseen phoneNumber p
                         (tp :: fetchedSecondaries tp rest d))
             then [mkContact (nextId d) p e (Some (id tp)) secondary
                     (clock d) (clock d) None]
             else [])
    /\ List.length (merged tp rest d) = List.length (rows d).
Proof.
  intros Hup Hroots.
  pose proof (roots_matching e p d tp rest Hroots) as Hm.
  rewrite (identifyContact_group e p d tp rest Hup Hm Hroots). cbv zeta.
  unfold hasNewInfo, groupEmails, groupPhones.
  rewrite (isNew_unseen email e), (isNew_unseen phoneNumber p).
  destruct ((truthy_str e && unseen email e _)
            || (truthy_str p && unseen phoneNumber p _));
    completes; cbn [rows];
    rewrite ?app_nil_r; (split; [reflexivity|]); apply mergeRows_length.
Qed.

Lemma secondary_created_iff_new_info_witness :
  exists r d',
    identifyContact (Some "lorraine@hillvalley.edu"%string)
      (Some "5550142"%string) db_hill = (Ok r, d')
    /\ rows d'
       = rows db_hill
         ++ [mkContact 3 (Some "5550142"%string)
               (Some "lorraine@hillvalley.edu"%string) (Some 1) secondary
               100 100 None].
Proof.
  destruct (secondary_created_iff_new_info
              (Some "lorraine@hillvalley.edu"%string)
              (Some "5550142"%string) db_hill
              (mkContact 1 (Some "123456"%string)
                 (Some "lorraine@hillvalley.edu"%string) None primary 10 10
                 None) []
              eq_refl eq_refl)
    as [r [d' [H1 [H2 _]]]].
  exists r, d'. split; [exact H1 | exact H2].
Defined.

(** C4 as claimed fails for the request with an empty email and a known
    phone.  On [db_hill] the request matches and resolves the group of
    record 1, the email is not null and on no record of the group, and the
    call creates nothing.  On [db_blank] the same happens although the
    email, too, is on a record of the table. *)
Lemma empty_email_counterexample :
  let e := Some EmptyString in
  let p := Some "123456"%string in
  (matching e p db_hill <> []
   /\ (exists tp rest,
         roots e p db_hill = tp :: rest
         /\ unseen email e (tp :: fetchedSecondaries tp rest db_hill) = true)
   /\ exists r d',
        identifyContact e p db_hill = (Ok r, d')
        /\ rows d' = rows db_hill)
  /\ (existsb (fun c => live c && col_eq (email c) e) (rows db_blank) = true
      /\ existsb (fun c => live c && col_eq (phoneNumber c) p)
           (rows db_blank) = true
      /\ (exists tp rest,
            roots e p db_blank = tp :: rest
            /\ unseen email e (tp :: fetchedSecondaries tp rest db_blank)
               = true)
      /\ exists r d',
           identifyContact e p db_blank = (Ok r, d')
           /\ rows d' = rows db_blank).
Proof.
  cbv zeta. split.
  - split; [discriminate|]. split.
    + eexists. eexists. split; [vm_compute; reflexivity | reflexivity].
    + eexists. eexists. split; [vm_compute; reflexivity | reflexivity].
  - split; [reflexivity|]. split; [reflexivity|]. split.
    + eexists. eexists. split; [vm_compute; reflexivity | reflexivity].
    + eexists. eexists. split; [vm_compute; reflexivity | reflexivity].
Qed.

(** ** Running the client when the database may go away *)

Lemma roundtrip_cases (c : StoreCall) (d : Db) :
  roundtrip c d = (Ok tt, logged c d)
  \/ roundtrip c d = (Throw StoreError, d).
Proof.
  unfold roundtrip. destruct (outage d) as [k|]; [|auto].
  destruct (Nat.eqb k (List.length (calls d))); auto.
Qed.

Lemma findMany_cases (w : Contact -> bool) (d : Db) :
  findMany w d = (Ok (filter w (rows d)), logged FindMany d)
  \/ findMany w d = (Throw StoreError, d).
Proof.
  unfold findMany, bind.
  destruct (roundtrip_cases FindMany d) as [E|E]; rewrite E; auto.
Qed.

Lemma findManyOrderByCreatedAt_cases (w : Contact -> bool) (d : Db) :
  findManyOrderByCreatedAt w d
  = (Ok (orderByCreatedAt (tieRank d) (filter w (rows d))),
     logged FindMany d)
  \/ findManyOrderByCreatedAt w d = (Throw StoreError, d).
Proof.
  unfold findManyOrderByCreatedAt, bind.
  destruct (roundtrip_cases FindMany d) as [E|E]; rewrite E; auto.
Qed.

Lemma create_cases (e p : option string) (lp : LinkPrecedence)
  (l : option Z) (d : Db) :
  (exists c d', create e p lp l d = (Ok c, d'))
  \/ create e p lp l d = (Throw StoreError, d).
Proof.
  unfold create, bind.
  destruct (roundtrip_cases Create d) as [E|E]; rewrite E; eauto.
Qed.

Lemma loop_guard (tp : option Contact) (rest : list Contact) :
  (if Nat.ltb 1 (S (List.length rest)) then mergeLoop tp rest else ret tt)
  = mergeLoop tp rest.
Proof. destruct rest; reflexivity. Qed.

(** The loop either runs to its end or stops at the first failing
    write, keeping the writes made before it. *)
Lemma mergeLoop_cases (tp : Contact) (ps : list Contact) :
  forall d res d',
  mergeLoop (Some tp) ps d = (res, d') ->
  clock d' = clock d
  /\ ((res = Ok tt
       /\ rows d' = mergeRows (id tp) (clock d) ps (rows d))
      \/ (res = Throw StoreError
          /\ interrupted (id tp) (clock d) ps (rows d) (rows d'))).
Proof.
  induction ps as [|q ps IH]; intros d res d' H.
  - cbn in H. injection H as <- <-. auto.
  - cbn [mergeLoop] in H. unfold bind at 1 in H. cbn [idOf ret] in H.
    unfold bind at 1, newDate at 1 in H.
    unfold bind at 1, update at 1, bind at 1 in H.
    destruct (roundtrip_cases Update d) as [E|E]; rewrite E in H.
    + unfold bind at 1 in H. cbn [idOf ret] in H.
      unfold bind at 1, updateMany at 1, bind at 1 in H.
      match type of H with
      | context [roundtrip UpdateMany ?d1] =>
          destruct (roundtrip_cases UpdateMany d1) as [E'|E'];
          rewrite E' in H
      end.
      * apply IH in H. unfold with_rows, logged in H.
        cbn [rows clock] in H. destruct H as [Hc [[-> Hr]|[-> Hr]]];
          (split; [exact Hc|]); [left|right]; (split; [reflexivity|]).
        -- exact Hr.
        -- destruct Hr as [k Hk]. exists (S k). cbn [firstn nth_error].
           exact Hk.
      * injection H as <- <-. unfold with_rows, logged. cbn [rows clock].
        split; [reflexivity|]. right. split; [reflexivity|].
        exists 0%nat. right. exists q. auto.
    + injection H as <- <-. split; [reflexivity|]. right.
      split; [reflexivity|]. exists 0%nat. left. reflexivity.
Qed.


Lemma interrupted_end (tp now : Z) (rest rs : list Contact) :
  interrupted tp now rest rs (mergeRows tp now rest rs).
Proof. exists (List.length rest). left. now rewrite firstn_all. Qed.

(** A call that fails leaves the table as it was, or as the interrupted
    merge made it: nothing is rolled back. *)
Lemma failed_cases (e p : option string) (d : Db) (x : Exn) (d' : Db) :
  identifyContact e p d = (Throw x, d') ->
  rows d' = rows d
  \/ exists tp rest,
       roots e p d = tp :: rest
       /\ interrupted (id tp) (clock d) rest (rows d) (rows d').
Proof.
  intros H. unfold identifyContact in H. unfold bind at 1 in H.
  destruct (findMany_cases (matchWhere e p) d) as [E|E]; rewrite E in H;
    [|injection H as _ <-; now left].
  fold (matching e p d) in H.
  destruct (matching e p d) as [|m ms] eqn:Em.
  - cbn [List.length Nat.eqb] in H. unfold bind at 1 in H.
    destruct (create_cases e p primary None (logged FindMany d))
      as [[c [d1 E1]]|E1]; rewrite E1 in H.
    + discriminate H.
    + injection H as _ <-. now left.
  - cbn [List.length Nat.eqb] in H. unfold bind at 1 in H.
    destruct (findManyOrderByCreatedAt_cases
                (rootWhere (rootIds (m :: ms))) (logged FindMany d))
      as [E1|E1]; rewrite E1 in H; [|injection H as _ <-; now left].
    cbn [rows tieRank logged] in H. rewrite <- Em in H.
    fold (roots e p d) in H.
    destruct (roots e p d) as [|tp rest] eqn:Er.
    + cbn in H. injection H as _ <-. now left.
    + right. exists tp, rest. split; [reflexivity|].
      cbn [List.length skipn nth_error] in H. rewrite loop_guard in H.
      unfold bind at 1 in H.
      destruct (mergeLoop (Some tp) rest _) as [res d1] eqn:El.
      apply mergeLoop_cases in El. cbn [rows clock] in El.
      destruct El as [Hc [[-> Hr]|[-> Hr]]];
        [|injection H as _ <-; exact Hr].
      assert (Hd1 : interrupted (id tp) (clock d) rest (rows d) (rows d1))
        by (rewrite Hr; apply interrupted_end).
      unfold bind at 1 in H.
      destruct (findMany_cases (linkedWhere (id tp)) d1) as [E2|E2];
        rewrite E2 in H; [|injection H as _ <-; exact Hd1].
      cbv zeta in H. destruct (_ || _) in H; [|discriminate H].
      unfold bind at 1 in H.
      destruct (create_cases e p secondary (Some (id tp))
                  (logged FindMany d1)) as [[c [d2 E3]]|E3];
        rewrite E3 in H; [discriminate H|].
      injection H as _ <-. exact Hd1.
Qed.

Lemma nodup_num_NoDup (l : list Z) : nodup_num l = true <-> NoDup l.
Proof.
  induction l as [|x xs IH]; cbn [nodup_num].
  - split; [constructor | reflexivity].
  - rewrite andb_true_iff, negb_true_iff, IH, NoDup_cons_iff.
    rewrite <- includes_num_In.
    destruct (includes_num xs x); intuition congruence.
Qed.

Lemma NoDup_map_filter {A B : Type} (f : A -> B) (g : A -> bool)
  (l : list A) :
  NoDup (map f l) -> NoDup (map f (filter g l)).
Proof.
  induction l as [|a l IH]; cbn; [auto|]. intros H.
  apply NoDup_cons_iff in H. destruct H as [Hn Hd].
  destruct (g a); [|auto]. cbn. constructor; [|auto].
  intros Hin. apply Hn. apply in_map_iff in Hin.
  destruct Hin as [b [E Hb]]. apply filter_In in Hb.
  apply in_map_iff. exists b. tauto.
Qed.

(** With unique ids in the table, the fetched roots have distinct ids. *)
Lemma roots_NoDup (e p : option string) (d : Db) :
  ids_unique d = true -> NoDup (map id (roots e p d)).
Proof.
  intros H. apply nodup_num_NoDup in H. unfold roots.
  eapply Permutation_NoDup.
  - apply Permutation_map. symmetry. apply orderByCreatedAt_perm.
  - now apply NoDup_map_filter.
Qed.

Lemma mergeRow_live (tp now : Z) (ids : list Z) (c : Contact) :
  live (mergeRow tp now ids c) = live c.
Proof.
  unfold mergeRow. destruct (includes_num ids (id c)); [reflexivity|].
  destruct (linkedToAny ids c); reflexivity.
Qed.





(** ** One level of indirection *)

Lemma is_secondary_true (c : Contact) :
  is_secondary c = true <-> linkPrecedence c = secondary.
Proof.
  unfold is_secondary. destruct (linkPrecedence c); cbn;
    split; congruence.
Qed.

Lemma is_primary_true (c : Contact) :
  is_primary c = true <-> linkPrecedence c = primary.
Proof.
  unfold is_primary. destruct (linkPrecedence c); cbn; split; congruence.
Qed.

Lemma depth_one_spec (rs : list Contact) :
  depth_one rs = true
  <-> forall c, In c rs -> live c = true -> linkPrecedence c = secondary ->
      exists q, In q rs /\ linkedId c = Some (id q)
                /\ live q = true /\ linkPrecedence q = primary.
Proof.
  unfold depth_one. rewrite forallb_forall. split.
  - intros H c Hc Hl Hs. specialize (H c Hc).
    apply is_secondary_true in Hs. rewrite Hl, Hs in H. cbn in H.
    apply existsb_exists in H. destruct H as [q [Hq Hx]].
    apply andb_true_iff in Hx. destruct Hx as [Hx Hp].
    apply andb_true_iff in Hx. destruct Hx as [Hx Hlq].
    exists q. apply is_primary_true in Hp. repeat split; try assumption.
    unfold col_num_is in Hx. destruct (linkedId c) as [l|]; [|discriminate].
    apply Z.eqb_eq in Hx. now subst.
  - intros H c Hc. destruct (live c) eqn:Hl; [|reflexivity].
    destruct (is_secondary c) eqn:Hs; [|reflexivity]. cbn.
    apply is_secondary_true in Hs.
    destruct (H c Hc Hl Hs) as [q [Hq [E [Hlq Hp]]]].
    apply existsb_exists. exists q. split; [assumption|].
    apply is_primary_true in Hp. rewrite E, Hlq, Hp. cbn.
    now rewrite Z.eqb_refl.
Qed.

Lemma unique_by_id (rs : list Contact) (a b : Contact) :
  NoDup (map id rs) -> In a rs -> In b rs -> id a = id b -> a = b.
Proof.
  induction rs as [|c rs IH]; intros Hnd Ha Hb E; [destruct Ha|].
  cbn in Hnd. apply NoDup_cons_iff in Hnd. destruct Hnd as [Hn Hnd].
  destruct Ha as [<-|Ha], Hb as [<-|Hb].
  - reflexivity.
  - exfalso. apply Hn. rewrite E. now apply in_map.
  - exfalso. apply Hn. rewrite <- E. now apply in_map.
  - now apply IH.
Qed.

Lemma matching_In (e p : option string) (d : Db) (m : Contact) :
  In m (matching e p d) -> In m (rows d) /\ live m = true.
Proof.
  unfold matching. rewrite filter_In, matchWhere_spec, andb_true_iff. tauto.
Qed.

(** In a table with unique ids and one level of indirection, every
    fetched root is a primary. *)
Lemma roots_primary (e p : option string) (d : Db) (q : Contact) :
  ids_unique d = true -> depth_one (rows d) = true ->
  In q (roots e p d) -> linkPrecedence q = primary.
Proof.
  intros Hu Hd Hq. apply nodup_num_NoDup in Hu.
  rewrite depth_one_spec in Hd.
  apply roots_In in Hq. destruct Hq as [Hin [Hl [m [Hm Hr]]]].
  apply matching_In in Hm. destruct Hm as [Hmin Hml].
  unfold rootOf in Hr. destruct (linkPrecedence m) eqn:Ep.
  - injection Hr as Hr.
    now rewrite <- (unique_by_id (rows d) m q Hu Hmin Hin Hr).
  - destruct (truthy_num (linkedId m)); [|discriminate].
    destruct (Hd m Hmin Hml Ep) as [q' [Hq' [E [_ Hp]]]].
    rewrite Hr in E. injection E as E.
    now rewrite (unique_by_id (rows d) q q' Hu Hin Hq' E).
Qed.

Lemma mergeRow_kept_primary (tp now : Z) (ids : list Z) (c : Contact) :
  ~ In (id c) ids ->
  linkPrecedence (mergeRow tp now ids c) = linkPrecedence c.
Proof.
  intros H. unfold mergeRow.
  destruct (includes_num ids (id c)) eqn:E.
  - apply includes_num_In in E. contradiction.
  - destruct (linkedToAny ids c); reflexivity.
Qed.

(** The merge of a resolved group, in a table with unique ids and one
    level of indirection. *)
Section MergeKeepsDepth.

Variables (e p : option string) (d : Db).
Variables (tp : Contact) (rest : list Contact).
Hypothesis Hu : ids_unique d = true.
Hypothesis Hd : depth_one (rows d) = true.
Hypothesis Hroots : roots e p d = tp :: rest.

(** The true primary is not among the roots to demote. *)
Lemma true_primary_apart : ~ In (id tp) (map id rest).
Proof.
  pose proof (roots_NoDup e p d Hu) as Hnd. rewrite Hroots in Hnd.
  cbn [map] in Hnd. apply NoDup_cons_iff in Hnd. tauto.
Qed.

(** The true primary is still a non-deleted primary after the merge. *)
Lemma merged_true_primary :
  exists q, In q (merged tp rest d) /\ id q = id tp
            /\ live q = true /\ linkPrecedence q = primary.
Proof.
  assert (Htpin : In tp (roots e p d)) by (rewrite Hroots; now left).
  pose proof (roots_primary e p d tp Hu Hd Htpin) as Htpp.
  apply roots_In in Htpin. destruct Htpin as [Htprow [Htpl _]].
  exists (mergeRow (id tp) (clock d) (map id rest) tp).
  split; [apply merged_In; exists tp; auto|].
  rewrite mergeRow_id, mergeRow_live, mergeRow_kept_primary;
    auto using true_primary_apart.
Qed.

(** The merge keeps one level of indirection. *)
Lemma merged_depth_one (c : Contact) :
  In c (merged tp rest d) -> live c = true ->
  linkPrecedence c = secondary ->
  exists q, In q (merged tp rest d) /\ linkedId c = Some (id q)
            /\ live q = true /\ linkPrecedence q = primary.
Proof.
  intros Hc Hl Hs.
  destruct merged_true_primary as [t [G1 [G2 [G3 G4]]]].
  apply merged_In in Hc. destruct Hc as [c0 [Hc0 ->]].
  unfold mergeRow in Hl, Hs |- *.
  destruct (includes_num (map id rest) (id c0)) eqn:Ei.
  - exists t. cbn. rewrite G2. auto.
  - destruct (linkedToAny (map id rest) c0) eqn:Ea.
    + exists t. cbn. rewrite G2. auto.
    + pose proof Hd as Hd'. rewrite depth_one_spec in Hd'.
      destruct (Hd' c0 Hc0 Hl Hs) as [q0 [Hq0 [E [Hlq Hpq]]]].
      assert (Hnot : ~ In (id q0) (map id rest)).
      { intros Hin. apply includes_num_In in Hin.
        unfold linkedToAny in Ea. rewrite Hl, E in Ea. cbn in Ea.
        congruence. }
      exists (mergeRow (id tp) (clock d) (map id rest) q0).
      split; [apply merged_In; exists q0; auto|].
      rewrite mergeRow_id, mergeRow_live,
        (mergeRow_kept_primary _ _ _ _ Hnot). auto.
Qed.

End MergeKeepsDepth.

(** A call that completes keeps one level of indirection. *)
Lemma depth_one_completed (e p : option string) (d : Db)
  (r : ContactResponse) (d' : Db) :
  ids_unique d = true ->
  depth_one (rows d) = true ->
  identifyContact e p d = (Ok r, d') ->
  depth_one (rows d') = true.
Proof.
  intros Hu Hd H.
  apply depth_one_spec. intros c Hc Hl Hs.
  destruct (completed_cases e p d r d' H)
    as [[Hm [_ [Hrows _]]]
       | [tp [rest [Hm [Hroots [[_ [_ [Hrows _]]] | [_ [_ [Hrows _]]]]]]]]];
    rewrite Hrows in Hc |- *.
  - apply in_app_or in Hc. destruct Hc as [Hc|[<-|[]]]; [|discriminate Hs].
    rewrite depth_one_spec in Hd.
    destruct (Hd c Hc Hl Hs) as [q [Hq Hrest]].
    exists q. rewrite in_app_iff. auto.
  - apply in_app_or in Hc. destruct Hc as [Hc|[<-|[]]].
    + destruct (merged_depth_one e p d tp rest Hu Hd Hroots c Hc Hl Hs)
        as [q [Hq Hrest]].
      exists q. rewrite in_app_iff. auto.
    + destruct (merged_true_primary e p d tp rest Hu Hd Hroots)
        as [q [Hq [Hid Hrest]]].
      exists q. rewrite in_app_iff. cbn. rewrite Hid. auto.
  - exact (merged_depth_one e p d tp rest Hu Hd Hroots c Hc Hl Hs).
Qed.

(** C2, as the code has it.  In a table with unique ids where every
    non-deleted secondary is linked to a non-deleted primary, a call that
    completes leaves every non-deleted secondary linked to a non-deleted
    primary.  In particular, when the call demotes root [B] under the true
    primary [A], a non-deleted record [C] that was a secondary of [B] is
    still in the table and is linked to [A].  Soft-deleted records are
    outside both: no query of the service reads or writes them. *)
Theorem links_reference_primaries (e p : option string) (d : Db)
  (r : ContactResponse) (d' : Db) :
  ids_unique d = true ->
  depth_one (rows d) = true ->
  identifyContact e p d = (Ok r, d') ->
  depth_one (rows d') = true
  /\ forall A rest B C,
       roots e p d = A :: rest -> In B rest ->
       In C (rows d) -> linkPrecedence C = secondary ->
       linkedWhere (id B) C = true ->
       (exists C', In C' (rows d') /\ id C' = id C)
       /\ forall C', In C' (rows d') -> id C' = id C ->
            linkedId C' = Some (id A).
Proof.
  intros Hu Hd H. split.
  - exact (depth_one_completed e p d r d' Hu Hd H).
  - intros A rest B C Hroots HB HC Hs HBC.
    assert (HgC : linkedId (mergeRow (id A) (clock d) (map id rest) C)
                  = Some (id A)).
    { unfold mergeRow.
      destruct (includes_num (map id rest) (id C)); [reflexivity|].
      replace (linkedToAny (map id rest) C) with true; [reflexivity|].
      symmetry. unfold linkedWhere in HBC. apply andb_true_iff in HBC.
      destruct HBC as [Hl Hlive]. unfold linkedToAny, live. rewrite Hlive.
      unfold col_num_is in Hl. destruct (linkedId C) as [l|]; [|discriminate].
      apply Z.eqb_eq in Hl. subst l. cbn. apply includes_num_In.
      now apply in_map. }
    assert (Hin : In (mergeRow (id A) (clock d) (map id rest) C)
                    (merged A rest d))
      by (apply merged_In; exists C; auto).
    assert (Hall : forall C', In C' (merged A rest d) -> id C' = id C ->
                              linkedId C' = Some (id A)).
    { intros C' HC' Hid. apply merged_In in HC'.
      destruct HC' as [c0 [Hc0 ->]]. rewrite mergeRow_id in Hid.
      apply nodup_num_NoDup in Hu.
      now rewrite (unique_by_id (rows d) c0 C Hu Hc0 HC Hid). }
    destruct (completed_cases e p d r d' H)
      as [[Hm _]
         | [tp [rest' [Hm [Hroots' [[_ [_ [Hrows _]]] | [_ [_ [Hrows _]]]]]]]]].
    + exfalso. exact (roots_matching e p d A rest Hroots Hm).
    + rewrite Hroots in Hroots'. injection Hroots' as <- <-.
      rewrite Hrows. split.
      * eexists. rewrite in_app_iff. split; [left; exact Hin|].
        apply mergeRow_id.
      * intros C' HC' Hid. apply in_app_or in HC'.
        destruct HC' as [HC'|[<-|[]]]; [now apply Hall | reflexivity].
    + rewrite Hroots in Hroots'. injection Hroots' as <- <-.
      rewrite Hrows. split; [|exact Hall].
      eexists. split; [exact Hin | apply mergeRow_id].
Qed.

Lemma links_reference_primaries_witness :
  depth_one
    (rows (snd (identifyContact (Some "doc@hillvalley.edu"%string)
                  (Some "5550100"%string) db_two))) = true
  /\ forall C', In C'
         (rows (snd (identifyContact (Some "doc@hillvalley.edu"%string)
                       (Some "5550100"%string) db_two))) ->
       id C' = 3 -> linkedId C' = Some 1.
Proof.
  destruct (links_reference_primaries
              (Some "doc@hillvalley.edu"%string) (Some "5550100"%string)
              db_two
              (mkResponse 1 ["doc@hillvalley.edu"%string]
                 ["5550100"%string; "5550199"%string] [2; 3])
              (snd (identifyContact (Some "doc@hillvalley.edu"%string)
                      (Some "5550100"%string) db_two))
              eq_refl eq_refl eq_refl) as [H1 H2].
  split; [exact H1|].
  apply (H2 (mkContact 1 None (Some "doc@hillvalley.edu"%string) None
               primary 10 10 None)
            [mkContact 2 (Some "5550100"%string) None None primary 20 20
               None]
            (mkContact 2 (Some "5550100"%string) None None primary 20 20
               None)
            (mkContact 3 (Some "5550199"%string) None (Some 2) secondary 30
               30 None)
            eq_refl (or_introl eq_refl)
            (or_intror (or_intror (or_introl eq_refl))) eq_refl eq_refl).
Defined.

(** C2 as claimed fails on [db_del], a table with unique ids in which
    every non-deleted secondary is linked to a non-deleted primary: the
    call demotes record 2 under record 1 and completes, and record 3, a
    soft-deleted secondary of record 2, is left as it was -- the bulk
    re-point selects non-deleted records only -- so that afterwards it is
    a secondary whose [linkedId] names a secondary, not record 1. *)
Lemma soft_deleted_link_counterexample :
  let out := identifyContact (Some "doc@hillvalley.edu"%string)
               (Some "5550100"%string) db_del in
  ids_unique db_del = true
  /\ depth_one (rows db_del) = true
  /\ (exists r, fst out = Ok r /\ primaryContatctId r = 1)
  /\ exists C B,
       In C (rows db_del) /\ In C (rows (snd out)) /\ In B (rows (snd out))
       /\ linkPrecedence C = secondary /\ linkedId C = Some (id B)
       /\ linkPrecedence B = secondary /\ linkedId B = Some 1.
Proof.
  cbv zeta. split; [reflexivity|]. split; [reflexivity|]. split.
  - eexists. split; [vm_compute; reflexivity | reflexivity].
  - exists (mkContact 3 (Some "5550199"%string) None (Some 2) secondary 30
              30 (Some 50)),
           (mkContact 2 (Some "5550100"%string) None (Some 1) secondary 20
              100 None).
    cbn. repeat split; auto.
Qed.

(** ** Calling twice *)

Lemma well_formed_spec (d : Db) :
  well_formed d = true ->
  NoDup (map id (rows d))
  /\ (forall c, In c (rows d) -> 0 < id c < nextId d)
  /\ (forall c l, In c (rows d) -> linkedId c = Some l -> l < nextId d)
  /\ 0 < nextId d.
Proof.
  unfold well_formed, ids_unique, ids_issued, links_issued. intros H.
  apply andb_true_iff in H. destruct H as [H H4].
  apply andb_true_iff in H. destruct H as [H H3].
  apply andb_true_iff in H. destruct H as [H1 H2].
  rewrite forallb_forall in H2, H3. split; [now apply nodup_num_NoDup|].
  split; [|split].
  - intros c Hc. specialize (H2 c Hc). apply andb_true_iff in H2.
    destruct H2 as [Ha Hb]. apply Z.ltb_lt in Ha, Hb. lia.
  - intros c l Hc E. specialize (H3 c Hc). rewrite E in H3.
    now apply Z.ltb_lt in H3.
  - now apply Z.ltb_lt in H4.
Qed.

Lemma filter_map_commute {A : Type} (f : A -> bool) (g : A -> A)
  (l : list A) :
  (forall a, f (g a) = f a) -> filter f (map g l) = map g (filter f l).
Proof.
  intros H. induction l as [|a l IH]; cbn; [reflexivity|].
  rewrite H. destruct (f a); cbn; now rewrite IH.
Qed.

Lemma mergeRow_columns (tp now : Z) (ids : list Z) (c : Contact) :
  email (mergeRow tp now ids c) = email c
  /\ phoneNumber (mergeRow tp now ids c) = phoneNumber c
  /\ deletedAt (mergeRow tp now ids c) = deletedAt c.
Proof.
  unfold mergeRow. destruct (includes_num ids (id c)); [auto|].
  destruct (linkedToAny ids c); auto.
Qed.

Lemma matchWhere_mergeRow (e p : option string) (tp now : Z)
  (ids : list Z) (c : Contact) :
  matchWhere e p (mergeRow tp now ids c) = matchWhere e p c.
Proof.
  rewrite !matchWhere_spec. unfold live.
  destruct (mergeRow_columns tp now ids c) as [-> [-> ->]]. reflexivity.
Qed.

Lemma col_eq_refl (v : option string) :
  truthy_str v = true -> col_eq v v = true.
Proof.
  destruct v as [s|]; [|discriminate]. intros _. cbn.
  apply String.eqb_refl.
Qed.

(** A record created from a request with something given matches that
    request. *)
Lemma matchWhere_newRow (e p : option string) (lp : LinkPrecedence)
  (l : option Z) (d : Db) :
  truthy_str e || truthy_str p = true ->
  matchWhere e p (newRow e p lp l d) = true.
Proof.
  intros H. rewrite matchWhere_spec. cbn.
  destruct (truthy_str e) eqn:Ee.
  - now rewrite (col_eq_refl e Ee).
  - cbn in H |- *. now rewrite H, (col_eq_refl p H).
Qed.

(** The root read off a record after the merge: the true primary, or the
    root it had, in which case the record was not demoted and, if a
    secondary, not re-pointed. *)
Lemma rootOf_mergeRow (tp now : Z) (ids : list Z) (m : Contact) :
  0 < tp ->
  rootOf (mergeRow tp now ids m) = Some tp
  \/ (rootOf (mergeRow tp now ids m) = rootOf m
      /\ ~ In (id m) ids
      /\ (linkPrecedence m = primary \/ linkedToAny ids m = false)).
Proof.
  intros Htp. unfold mergeRow.
  assert (Ht : truthy_num (Some tp) = true).
  { cbn. apply negb_true_iff, Z.eqb_neq. lia. }
  destruct (includes_num ids (id m)) eqn:Ei.
  - left. unfold rootOf. cbn [demote linkPrecedence linkedId].
    now rewrite Ht.
  - assert (Hn : ~ In (id m) ids).
    { intros Hin. apply includes_num_In in Hin. congruence. }
    destruct (linkedToAny ids m) eqn:Ea.
    + unfold rootOf. cbn [relink linkPrecedence linkedId id].
      destruct (linkPrecedence m); [right; auto | left; now rewrite Ht].
    + right. auto.
Qed.

Lemma filter_unique (f : Contact -> bool) (l : list Contact)
  (a : Contact) :
  NoDup (map id l) -> In a l ->
  (forall c, In c l -> (f c = true <-> id c = id a)) ->
  filter f l = [a].
Proof.
  induction l as [|x l IH]; intros Hnd Ha Hf; [destruct Ha|].
  cbn in Hnd. apply NoDup_cons_iff in Hnd. destruct Hnd as [Hn Hnd].
  assert (Hnone : forall l', (forall c, In c l' -> f c = false) ->
                             filter f l' = []).
  { induction l' as [|y l' IH']; intros Hall; [reflexivity|]. cbn.
    rewrite (Hall y (or_introl eq_refl)). apply IH'. intros c Hc.
    apply Hall. now right. }
  cbn. destruct Ha as [->|Ha].
  - rewrite (proj2 (Hf a (or_introl eq_refl)) eq_refl). f_equal.
    apply Hnone. intros c Hc. destruct (f c) eqn:E; [|reflexivity].
    exfalso. apply Hf in E; [|now right]. apply Hn. rewrite <- E.
    now apply in_map.
  - destruct (f x) eqn:E.
    + exfalso. apply Hf in E; [|now left]. apply Hn. rewrite E.
      now apply in_map.
    + apply IH; [assumption | assumption |]. intros c Hc. apply Hf.
      now right.
Qed.

(** A given value that some record of the group carries is not new. *)
Lemma isNew_covered (f : Contact -> option string) (v : option string)
  (group : list Contact) :
  (truthy_str v = true -> exists c, In c group /\ f c = v) ->
  isNew v (set_of_strs (truthy_values f group)) = false.
Proof.
  intros H. unfold isNew. destruct v as [s|]; [|reflexivity].
  destruct (truthy_str (Some s)) eqn:Et; [|reflexivity]. cbn [andb].
  apply negb_false_iff, includes_str_In, set_of_strs_In, truthy_values_In.
  destruct (H eq_refl) as [c [Hc E]]. split; [|eauto].
  intros ->. discriminate Et.
Qed.

Lemma truthy_values_head (f : Contact -> option string)
  (a b : Contact) (l : list Contact) :
  f a = f b -> truthy_values f (a :: l) = truthy_values f (b :: l).
Proof. intros E. unfold truthy_values. cbn. now rewrite E. Qed.

(** After a call has resolved a group, the same request resolves to one
    root: the true primary. *)
Lemma repeat_roots (e p : option string) (d d1 : Db) (tp : Contact)
  (rest extra : list Contact) :
  well_formed d = true ->
  roots e p d = tp :: rest ->
  rows d1 = merged tp rest d ++ extra ->
  (forall c, In c extra ->
     id c = nextId d /\ live c = true /\ rootOf c = Some (id tp)) ->
  (List.length extra <= 1)%nat ->
  roots e p d1 = [mergeRow (id tp) (clock d) (map id rest) tp].
Proof.
  intros Hwf Hroots Hrows Hextra Hlen.
  destruct (well_formed_spec d Hwf) as [Hnd [Hids [Hlinks _]]].
  set (g := mergeRow (id tp) (clock d) (map id rest)).
  assert (Htpin : In tp (roots e p d)) by (rewrite Hroots; now left).
  apply roots_In in Htpin. destruct Htpin as [Htprow [Htpl [m0 [Hm0 Hr0]]]].
  pose proof (Hids tp Htprow) as Htpid.
  assert (Hmerged : forall c, In c (merged tp rest d)
                    <-> exists c0, In c0 (rows d) /\ c = g c0)
    by (intros c; apply merged_In).
  assert (Hrow1 : forall c, In c (rows d1) ->
            (exists c0, In c0 (rows d) /\ c = g c0) \/ In c extra).
  { intros c Hc. rewrite Hrows in Hc. apply in_app_or in Hc.
    destruct Hc as [Hc|Hc]; [left; now apply Hmerged | now right]. }
  assert (Hg1 : forall c0, In c0 (rows d) -> In (g c0) (rows d1)).
  { intros c0 Hc0. rewrite Hrows. apply in_or_app. left.
    apply Hmerged. eauto. }
  assert (HM1 : forall m1, In m1 (matching e p d1) ->
            (exists m, In m (matching e p d) /\ m1 = g m) \/ In m1 extra).
  { intros m1 Hm1. unfold matching in Hm1. apply filter_In in Hm1.
    destruct Hm1 as [Hm1 Hw]. destruct (Hrow1 m1 Hm1) as [[m [Hm ->]]|Hx];
      [left|now right].
    exists m. split; [|reflexivity]. unfold matching. apply filter_In.
    split; [assumption|]. unfold g in Hw.
    now rewrite matchWhere_mergeRow in Hw. }
  assert (HM2 : forall m, In m (matching e p d) ->
                          In (g m) (matching e p d1)).
  { intros m Hm. unfold matching in Hm |- *. apply filter_In in Hm.
    destruct Hm as [Hm Hw]. apply filter_In. split; [now apply Hg1|].
    unfold g. now rewrite matchWhere_mergeRow. }
  unfold roots. replace (filter _ (rows d1)) with [g tp]; [reflexivity|].
  symmetry. apply filter_unique.
  - rewrite Hrows, map_app.
    assert (Hmn : NoDup (map id (merged tp rest d))).
    { eapply Permutation_NoDup; [|exact Hnd].
      rewrite (merged_perm tp rest d), map_map.
      rewrite (map_ext (fun x => id (mergeRow (id tp) (clock d)
                                       (map id rest) x)) id)
        by (intros a; apply mergeRow_id).
      reflexivity. }
    destruct extra as [|x [|y extra]];
      [now rewrite app_nil_r| |cbn in Hlen; lia].
    cbn [map]. eapply Permutation_NoDup; [apply Permutation_cons_append|].
    constructor; [|assumption]. intros Hin. apply in_map_iff in Hin.
    destruct Hin as [c [E Hc]]. apply Hmerged in Hc.
    destruct Hc as [c0 [Hc0 ->]]. unfold g in E. rewrite mergeRow_id in E.
    apply Hids in Hc0.
    destruct (Hextra x (or_introl eq_refl)) as [Hx _]. lia.
  - now apply Hg1.
  - intros c Hc.
    replace (id (g tp)) with (id tp) by (symmetry; apply mergeRow_id).
    rewrite rootWhere_spec. apply Hrow1 in Hc. split.
    + intros [Hl [m1 [Hm1 Hr1]]]. apply HM1 in Hm1.
      destruct Hm1 as [[m [Hm ->]]|Hm1].
      * destruct (rootOf_mergeRow (id tp) (clock d) (map id rest) m
                    (proj1 Htpid))
          as [E|[E [Hn Hcase]]]; fold g in E.
        { rewrite E in Hr1. now injection Hr1. }
        rewrite E in Hr1.
        pose proof (matching_In e p d m Hm) as [Hmrow Hml].
        destruct Hc as [[c0 [Hc0 ->]]|Hc].
        -- unfold g in Hl, Hr1 |- *. rewrite mergeRow_live in Hl.
           rewrite mergeRow_id in Hr1 |- *.
           assert (Hc0r : In c0 (roots e p d))
             by (apply roots_In; eauto).
           rewrite Hroots in Hc0r. destruct Hc0r as [<-|Hc0r];
             [reflexivity|exfalso].
           assert (Hc0i : In (id c0) (map id rest)) by now apply in_map.
           unfold rootOf in Hr1. destruct (linkPrecedence m) eqn:Ep.
           ++ injection Hr1 as Hr1. congruence.
           ++ destruct Hcase as [Hcase|Hcase]; [discriminate|].
              destruct (truthy_num (linkedId m)); [|discriminate].
              unfold linkedToAny in Hcase. rewrite Hml, Hr1 in Hcase.
              cbn in Hcase. apply includes_num_In in Hc0i. congruence.
        -- exfalso. destruct (Hextra c Hc) as [Hcid _].
           unfold rootOf in Hr1. destruct (linkPrecedence m).
           ++ injection Hr1 as Hr1. apply Hids in Hmrow. lia.
           ++ destruct (truthy_num (linkedId m)); [|discriminate].
              apply (Hlinks m _ Hmrow) in Hr1. lia.
      * destruct (Hextra m1 Hm1) as [_ [_ E]]. rewrite E in Hr1.
        now injection Hr1.
    + intros Hid. destruct Hc as [[c0 [Hc0 ->]]|Hc].
      * unfold g in Hid |- *. rewrite mergeRow_id in Hid |- *.
        rewrite mergeRow_live.
        rewrite (unique_by_id (rows d) c0 tp Hnd Hc0 Htprow Hid).
        split; [assumption|]. exists (g m0). split.
        -- now apply HM2.
        -- destruct (rootOf_mergeRow (id tp) (clock d) (map id rest) m0
                       (proj1 Htpid)) as [E|[E _]]; fold g in E;
             rewrite E; [reflexivity | assumption].
      * exfalso. destruct (Hextra c Hc) as [Hcid _]. lia.
Qed.

Lemma hasNewInfo_covered (e p : option string) (tp : Contact)
  (secs : list Contact) (c : Contact) :
  In c (tp :: secs) -> email c = e -> phoneNumber c = p ->
  hasNewInfo e p tp secs = false.
Proof.
  intros Hc He Hp. unfold hasNewInfo, groupEmails, groupPhones.
  rewrite !isNew_covered; [reflexivity | |]; intros _; exists c; auto.
Qed.

Lemma hasNewInfo_same_columns (e p : option string) (tp tp' : Contact)
  (secs : list Contact) :
  email tp' = email tp -> phoneNumber tp' = phoneNumber tp ->
  hasNewInfo e p tp' secs = hasNewInfo e p tp secs.
Proof.
  intros He Hp. unfold hasNewInfo, groupEmails, groupPhones.
  now rewrite (truthy_values_head email tp' tp secs He),
    (truthy_values_head phoneNumber tp' tp secs Hp).
Qed.

(** After a fresh primary was created, the same request resolves to it. *)
Lemma repeat_roots_fresh (e p : option string) (d d1 : Db) :
  well_formed d = true ->
  truthy_str e || truthy_str p = true ->
  matching e p d = [] ->
  rows d1 = rows d ++ [newRow e p primary None d] ->
  matching e p d1 = [newRow e p primary None d]
  /\ roots e p d1 = [newRow e p primary None d].
Proof.
  intros Hwf Hgiven Hm Hrows.
  destruct (well_formed_spec d Hwf) as [Hnd [Hids _]].
  assert (HM1 : matching e p d1 = [newRow e p primary None d]).
  { unfold matching in *. rewrite Hrows, filter_app, Hm. cbn [filter app].
    now rewrite (matchWhere_newRow e p primary None d Hgiven). }
  split; [exact HM1|]. unfold roots. rewrite HM1.
  replace (filter _ (rows d1)) with [newRow e p primary None d];
    [reflexivity|].
  symmetry. apply filter_unique.
  - rewrite Hrows, map_app. cbn [map].
    eapply Permutation_NoDup; [apply Permutation_cons_append|].
    constructor; [|assumption]. intros Hin. apply in_map_iff in Hin.
    destruct Hin as [c [E Hc]]. apply Hids in Hc. cbn in E. lia.
  - rewrite Hrows. apply in_or_app. right. now left.
  - intros c Hc. rewrite rootWhere_spec. cbn [newRow id]. split.
    + intros [_ [m [[<-|[]] Hr]]]. cbn in Hr. now injection Hr.
    + intros Hid. rewrite Hrows in Hc. apply in_app_or in Hc.
      destruct Hc as [Hc|[<-|[]]].
      * apply Hids in Hc. lia.
      * split; [reflexivity|]. eexists. split; [now left|]. reflexivity.
Qed.

(** C5.  In a well-formed table, with the database up and at least one of
    email and phone given, repeating a call that completed completes too,
    creates no record and changes no linkage: the table after the second
    call is the table after the first, and so is the primary answered. *)
Theorem repeat_is_pure_lookup (e p : option string) (d : Db)
  (r1 : ContactResponse) (d1 : Db) :
  outage d = None ->
  well_formed d = true ->
  truthy_str e || truthy_str p = true ->
  identifyContact e p d = (Ok r1, d1) ->
  exists r2 d2,
    identifyContact e p d1 = (Ok r2, d2)
    /\ rows d2 = rows d1
    /\ nextId d2 = nextId d1
    /\ primaryContatctId r2 = primaryContatctId r1.
Proof.
  intros Hup Hwf Hgiven H.
  destruct (matching e p d) as [|m ms] eqn:Em.
  - rewrite (identifyContact_no_match e p d Hup Em) in H.
    injection H as <- <-.
    set (c := newRow e p primary None d).
    match goal with
    | |- context [identifyContact e p ?x] => set (d1 := x)
    end.
    destruct (repeat_roots_fresh e p d d1 Hwf Hgiven Em eq_refl)
      as [HM1 HR1].
    assert (Hne : matching e p d1 <> []) by (rewrite HM1; discriminate).
    rewrite (identifyContact_group e p d1 c [] eq_refl Hne HR1). cbv zeta.
    rewrite (hasNewInfo_covered e p c _ c (or_introl eq_refl) eq_refl
               eq_refl).
    completes. auto.
  - assert (Hne : matching e p d <> []) by (rewrite Em; discriminate).
    destruct (roots e p d) as [|tp rest] eqn:Er.
    + rewrite (identifyContact_no_root e p d Hup Hne Er) in H.
      discriminate H.
    + rewrite (identifyContact_group e p d tp rest Hup Hne Er) in H.
      cbv zeta in H.
      destruct (well_formed_spec d Hwf) as [_ [Hids _]].
      assert (Htpin : In tp (roots e p d)) by (rewrite Er; now left).
      apply roots_In in Htpin. destruct Htpin as [Htprow _].
      pose proof (Hids tp Htprow) as Htpid.
      set (g := mergeRow (id tp) (clock d) (map id rest)).
      assert (Hgid : id (g tp) = id tp) by apply mergeRow_id.
      destruct (mergeRow_columns (id tp) (clock d) (map id rest) tp)
        as [Hge [Hgp _]]. fold g in Hge, Hgp.
      destruct (hasNewInfo e p tp (fetchedSecondaries tp rest d)) eqn:En;
        injection H as <- <-.
      * set (c := newRow e p secondary (Some (id tp)) d).
        match goal with
        | |- context [identifyContact e p ?x] => set (d1 := x)
        end.
        assert (HR1 : roots e p d1 = [g tp]).
        { apply (repeat_roots e p d d1 tp rest [c] Hwf Er eq_refl);
            [|cbn; lia].
          intros x [<-|[]]. split; [reflexivity|]. split; [reflexivity|].
          unfold rootOf. cbn.
          replace (id tp =? 0) with false; [reflexivity|].
          symmetry. apply Z.eqb_neq. lia. }
        pose proof (roots_matching e p d1 (g tp) [] HR1) as Hne1.
        rewrite (identifyContact_group e p d1 (g tp) [] eq_refl Hne1 HR1).
        cbv zeta.
        assert (Hc : In c (g tp :: fetchedSecondaries (g tp) [] d1)).
        { right. unfold fetchedSecondaries, merged.
          cbn [mergeRows fold_left rows d1]. apply filter_In. split.
          - apply in_or_app. right. now left.
          - unfold linkedWhere. cbn. rewrite Hgid. now rewrite Z.eqb_refl. }
        rewrite (hasNewInfo_covered e p (g tp) _ c Hc eq_refl eq_refl).
        completes. cbn. auto.
      * match goal with
        | |- context [identifyContact e p ?x] => set (d1 := x)
        end.
        assert (HR1 : roots e p d1 = [g tp]).
        { apply (repeat_roots e p d d1 tp rest [] Hwf Er);
            [cbn; now rewrite app_nil_r | intros x [] | cbn; lia]. }
        pose proof (roots_matching e p d1 (g tp) [] HR1) as Hne1.
        rewrite (identifyContact_group e p d1 (g tp) [] eq_refl Hne1 HR1).
        cbv zeta.
        assert (Hsecs : fetchedSecondaries (g tp) [] d1
                        = fetchedSecondaries tp rest d).
        { unfold fetchedSecondaries at 1. unfold merged at 1.
          cbn [mergeRows fold_left rows d1]. now rewrite Hgid. }
        rewrite Hsecs, (hasNewInfo_same_columns e p tp (g tp) _ Hge Hgp), En.
        completes. cbn. auto.
Qed.

Lemma repeat_is_pure_lookup_witness :
  exists r2 d2,
    identifyContact (Some "doc@hillvalley.edu"%string)
      (Some "5550100"%string)
      (snd (identifyContact (Some "doc@hillvalley.edu"%string)
              (Some "5550100"%string) db_two)) = (Ok r2, d2)
    /\ rows d2
       = rows (snd (identifyContact (Some "doc@hillvalley.edu"%string)
                      (Some "5550100"%string) db_two)).
Proof.
  destruct (repeat_is_pure_lookup
              (Some "doc@hillvalley.edu"%string) (Some "5550100"%string)
              db_two
              (mkResponse 1 ["doc@hillvalley.edu"%string]
                 ["5550100"%string; "5550199"%string] [2; 3])
              (snd (identifyContact (Some "doc@hillvalley.edu"%string)
                      (Some "5550100"%string) db_two))
              eq_refl eq_refl eq_refl eq_refl)
    as [r2 [d2 [H1 [H2 _]]]].
  exists r2, d2. split; [exact H1 | exact H2].
Defined.

(** ** The service from an empty table *)

Lemma well_formed_intro (d : Db) :
  NoDup (map id (rows d)) ->
  (forall c, In c (rows d) -> 0 < id c < nextId d) ->
  (forall c l, In c (rows d) -> linkedId c = Some l -> l < nextId d) ->
  0 < nextId d ->
  well_formed d = true.
Proof.
  intros H1 H2 H3 H4. unfold well_formed, ids_unique, ids_issued,
    links_issued.
  repeat (apply andb_true_iff; split).
  - now apply nodup_num_NoDup.
  - apply forallb_forall. intros c Hc. apply H2 in Hc.
    apply andb_true_iff. split; apply Z.ltb_lt; lia.
  - apply forallb_forall. intros c Hc.
    destruct (linkedId c) as [l|] eqn:E; [|reflexivity].
    apply Z.ltb_lt. exact (H3 c l Hc E).
  - now apply Z.ltb_lt.
Qed.

Lemma merged_ids (tp : Contact) (rest : list Contact) (d : Db) :
  Permutation (map id (merged tp rest d)) (map id (rows d)).
Proof.
  rewrite (merged_perm tp rest d), map_map.
  rewrite (map_ext (fun x => id (mergeRow (id tp) (clock d)
                                   (map id rest) x)) id)
    by (intros c; apply mergeRow_id).
  reflexivity.
Qed.

Lemma mergeRow_linkedId (tp now : Z) (ids : list Z) (c : Contact) :
  linkedId (mergeRow tp now ids c) = Some tp
  \/ linkedId (mergeRow tp now ids c) = linkedId c.
Proof.
  unfold mergeRow. destruct (includes_num ids (id c)); [now left|].
  destruct (linkedToAny ids c); [now left | now right].
Qed.

Lemma NoDup_ids_snoc (rs : list Contact) (c : Contact) :
  NoDup (map id rs) -> ~ In (id c) (map id rs) ->
  NoDup (map id (rs ++ [c])).
Proof.
  intros H Hn. rewrite map_app. cbn [map].
  eapply Permutation_NoDup; [apply Permutation_cons_append|].
  now constructor.
Qed.

(** A call that completes keeps the table well formed. *)
Lemma well_formed_completed (e p : option string) (d : Db)
  (r : ContactResponse) (d' : Db) :
  well_formed d = true ->
  identifyContact e p d = (Ok r, d') ->
  well_formed d' = true.
Proof.
  intros Hwf H.
  destruct (well_formed_spec d Hwf) as [Hnd [Hids [Hlinks Hnext]]].
  assert (Hfresh : forall rs, Permutation (map id rs) (map id (rows d)) ->
                   forall c, id c = nextId d -> ~ In (id c) (map id rs)).
  { intros rs E c Hc Hin. apply (Permutation_in _ E) in Hin.
    apply in_map_iff in Hin.
    destruct Hin as [c0 [E0 Hc0]]. apply Hids in Hc0. lia. }
  assert (Hin_ids : forall rs, Permutation (map id rs) (map id (rows d)) ->
                    forall c, In c rs -> 0 < id c < nextId d).
  { intros rs E c Hc. apply (in_map id) in Hc.
    apply (Permutation_in _ E) in Hc.
    apply in_map_iff in Hc. destruct Hc as [c0 [E0 Hc0]].
    apply Hids in Hc0. lia. }
  assert (Hsame : Permutation (map id (rows d)) (map id (rows d)))
    by reflexivity.
  destruct (completed_cases e p d r d' H)
    as [[Hm [_ [Hrows Hn]]]
       | [tp [rest [Hm [Hroots Hcase]]]]].
  - apply well_formed_intro; rewrite ?Hrows, ?Hn.
    + apply NoDup_ids_snoc; [assumption|]. now apply (Hfresh _ Hsame).
    + intros c Hc. apply in_app_or in Hc. destruct Hc as [Hc|[<-|[]]].
      * apply Hids in Hc. lia.
      * cbn. lia.
    + intros c l Hc E. apply in_app_or in Hc.
      destruct Hc as [Hc|[<-|[]]]; [|discriminate E].
      apply (Hlinks c l Hc) in E. lia.
    + lia.
  - assert (Htpin : In tp (roots e p d)) by (rewrite Hroots; now left).
    apply roots_In in Htpin. destruct Htpin as [Htprow _].
    pose proof (Hids tp Htprow) as Htpid.
    pose proof (merged_ids tp rest d) as Hmids.
    assert (Hml : forall c l, In c (merged tp rest d) ->
                  linkedId c = Some l -> l < nextId d).
    { intros c l Hc E. apply merged_In in Hc. destruct Hc as [c0 [Hc0 ->]].
      destruct (mergeRow_linkedId (id tp) (clock d) (map id rest) c0)
        as [E'|E']; rewrite E' in E.
      - injection E as <-. lia.
      - exact (Hlinks c0 l Hc0 E). }
    destruct Hcase as [[_ [_ [Hrows Hn]]] | [_ [_ [Hrows Hn]]]];
      apply well_formed_intro; rewrite ?Hrows, ?Hn.
    + apply NoDup_ids_snoc;
        [exact (Permutation_NoDup (Permutation_sym Hmids) Hnd)|].
      now apply Hfresh.
    + intros c Hc. apply in_app_or in Hc. destruct Hc as [Hc|[<-|[]]].
      * apply (Hin_ids _ Hmids) in Hc. lia.
      * cbn. lia.
    + intros c l Hc E. apply in_app_or in Hc. destruct Hc as [Hc|[<-|[]]].
      * apply (Hml c l Hc) in E. lia.
      * cbn in E. injection E as <-. lia.
    + lia.
    + exact (Permutation_NoDup (Permutation_sym Hmids) Hnd).
    + intros c Hc. exact (Hin_ids _ Hmids c Hc).
    + exact Hml.
    + assumption.
Qed.

(** With the database up, a call that matches and resolves no root leaves
    the table untouched; every other call completes. *)
Lemma up_outcome (e p : option string) (d : Db) :
  outage d = None ->
  (exists r d', identifyContact e p d = (Ok r, d') /\ outage d' = None)
  \/ (matching e p d <> [] /\ roots e p d = []
      /\ identifyContact e p d
         = (Throw TypeError, logged FindMany (logged FindMany d))).
Proof.
  intros Hup. destruct (matching e p d) as [|m ms] eqn:Em.
  - left. rewrite (identifyContact_no_match e p d Hup Em). eauto.
  - assert (Hne : matching e p d <> []) by (rewrite Em; discriminate).
    destruct (roots e p d) as [|tp rest] eqn:Er.
    + right. rewrite (identifyContact_no_root e p d Hup Hne Er).
      repeat split. discriminate.
    + left. rewrite (identifyContact_group e p d tp rest Hup Hne Er).
      cbv zeta. destruct (hasNewInfo e p tp _); eauto.
Qed.

(** In a well-formed table with one level of indirection every matched
    record resolves to a root. *)
Lemma roots_nonempty (e p : option string) (d : Db) :
  well_formed d = true -> depth_one (rows d) = true ->
  matching e p d <> [] -> roots e p d <> [].
Proof.
  intros Hwf Hd Hm Hr.
  destruct (well_formed_spec d Hwf) as [_ [Hids _]].
  rewrite depth_one_spec in Hd.
  destruct (matching e p d) as [|m ms] eqn:Em; [congruence|].
  assert (Hmin : In m (matching e p d)) by (rewrite Em; now left).
  pose proof (matching_In e p d m Hmin) as [Hrow Hl].
  assert (Hnone : forall c, ~ In c (roots e p d))
    by (intros c; rewrite Hr; intros []).
  destruct (linkPrecedence m) eqn:Ep.
  - apply (Hnone m), roots_In. repeat split; try assumption.
    exists m. split; [assumption|]. unfold rootOf. now rewrite Ep.
  - destruct (Hd m Hrow Hl Ep) as [q [Hq [E [Hlq _]]]].
    apply (Hnone q), roots_In. repeat split; try assumption.
    exists m. split; [assumption|]. unfold rootOf. rewrite Ep, E. cbn.
    apply Hids in Hq. replace (id q =? 0) with false; [reflexivity|].
    symmetry. apply Z.eqb_neq. lia.
Qed.

Lemma stringOrNull_given (v : JsValue) (e : option string) :
  truthy_js v = true -> stringOrNull v = Ok e -> e <> None.
Proof.
  unfold stringOrNull. intros ->. destruct (toString v); [|discriminate].
  intros E. injection E as <-. discriminate.
Qed.

(** What the route handler does with a request: it leaves the database
    alone (status 400, or 500 when [String] throws), or it calls
    [identifyContact] with arguments not both null and answers 200 or 500
    as the call returns or throws. *)
Lemma identifyRouter_cases (body : Body) (d : Db) (resp : HttpResponse)
  (d' : Db) :
  identifyRouter body d = (resp, d') ->
  d' = d
  \/ exists e p out,
       identifyContact e p d = (out, d')
       /\ (e <> None \/ p <> None)
       /\ resp = match out with
                 | Ok r => Status200 r
                 | Throw _ => Status500
                 end.
Proof.
  unfold identifyRouter. intros H.
  destruct (negb (truthy_js (body_email body))
            && negb (truthy_js (body_phoneNumber body))) eqn:Eg;
    [injection H as _ <-; now left|].
  destruct (stringOrNull (body_email body)) as [e|x] eqn:Ee;
    [|injection H as _ <-; now left].
  destruct (stringOrNull (body_phoneNumber body)) as [p|x] eqn:Ep;
    [|injection H as _ <-; now left].
  right. exists e, p.
  destruct (identifyContact e p d) as [out d1].
  exists out. split; [|split].
  - destruct out; injection H as _ <-; reflexivity.
  - apply andb_false_iff in Eg. destruct Eg as [Eg|Eg];
      apply negb_false_iff in Eg; [left|right];
      eapply stringOrNull_given; eassumption.
  - destruct out; now injection H as <- _.
Qed.

(** Every table the service builds is well formed and has one level of
    indirection. *)
Lemma built_invariant (d : Db) :
  built d ->
  outage d = None /\ well_formed d = true /\ depth_one (rows d) = true.
Proof.
  induction 1 as [t rk | d t rk _ [Hup [Hwf Hd]]
                 | d body resp d' _ [Hup [Hwf Hd]] Hreq].
  - auto.
  - repeat split; assumption.
  - destruct (identifyRouter_cases body d resp d' Hreq)
      as [->|[e [p [out [Hrun _]]]]]; [auto|].
    destruct (up_outcome e p d Hup)
      as [[r [d1 [E Hup1]]] | [Hm [Hr _]]].
    + rewrite E in Hrun. injection Hrun as _ <-.
      split; [assumption|]. split.
      * exact (well_formed_completed e p d r d1 Hwf E).
      * apply andb_true_iff in Hwf. destruct Hwf as [Hwf _].
        apply andb_true_iff in Hwf. destruct Hwf as [Hwf _].
        apply andb_true_iff in Hwf. destruct Hwf as [Hu _].
        exact (depth_one_completed e p d r d1 Hu Hd E).
    + exfalso. exact (roots_nonempty e p d Hwf Hd Hm Hr).
Qed.

(** So, on its own tables, the service never reads an undefined true
    primary: every call completes. *)
Lemma built_answers (d : Db) (e p : option string) :
  built d ->
  exists r d', identifyContact e p d = (Ok r, d').
Proof.
  intros Hbuilt. destruct (built_invariant d Hbuilt) as [Hup [Hwf Hd]].
  destruct (up_outcome e p d Hup) as [[r [d1 [E _]]] | [Hm [Hr _]]].
  - eauto.
  - exfalso. exact (roots_nonempty _ _ d Hwf Hd Hm Hr).
Qed.

(** The guard against a request with nothing given is the route handler's
    alone: called directly with two nulls, [identifyContact] matches
    nothing (an empty [OR]) and inserts a primary with both columns
    null. *)
Lemma identifyContact_without_input (d : Db) :
  outage d = None ->
  exists r d',
    identifyContact None None d = (Ok r, d')
    /\ rows d' = rows d ++ [newRow None None primary None d].
Proof.
  intros Hup. assert (Hm : matching None None d = []).
  { unfold matching. induction (rows d) as [|c rs IH]; [reflexivity|].
    cbn [filter]. rewrite matchWhere_spec. cbn [truthy_str andb orb].
    now rewrite andb_false_r. }
  rewrite (identifyContact_no_match None None d Hup Hm). eauto.
Qed.

(** * Further properties of the service *)

(** ** What a call does to the records already there *)

Lemma mergeRow_createdAt (tp now : Z) (ids : list Z) (c : Contact) :
  createdAt (mergeRow tp now ids c) = createdAt c.
Proof.
  unfold mergeRow. destruct (includes_num ids (id c)); [reflexivity|].
  destruct (linkedToAny ids c); reflexivity.
Qed.

Lemma mergeRow_same_data (tp now : Z) (ids : list Z) (c : Contact) :
  same_data c (mergeRow tp now ids c).
Proof.
  destruct (mergeRow_columns tp now ids c) as [He [Hp Hd]].
  unfold same_data.
  rewrite mergeRow_id, mergeRow_createdAt, He, Hp, Hd. auto.
Qed.

Lemma mergeRow_not_promoted (tp now : Z) (ids : list Z) (c : Contact) :
  not_promoted c (mergeRow tp now ids c).
Proof.
  unfold not_promoted, mergeRow. intros H.
  destruct (includes_num ids (id c)); [reflexivity|].
  destruct (linkedToAny ids c); assumption.
Qed.

Lemma demoteRow_same_data (tp now i : Z) (c : Contact) :
  same_data c (demoteRow tp now i c).
Proof.
  unfold demoteRow, same_data. destruct (id c =? i); cbn; auto.
Qed.

Lemma demoteRow_not_promoted (tp now i : Z) (c : Contact) :
  not_promoted c (demoteRow tp now i c).
Proof.
  unfold demoteRow, not_promoted. destruct (id c =? i); cbn; auto.
Qed.

Lemma same_data_trans (a b c : Contact) :
  same_data a b -> same_data b c -> same_data a c.
Proof.
  unfold same_data. intros [A1 [A2 [A3 [A4 A5]]]] [B1 [B2 [B3 [B4 B5]]]].
  repeat split; congruence.
Qed.

Lemma demoteStep_perm (tp now : Z) (q : Contact) (rs : list Contact) :
  Permutation (demoteStep tp now q rs) (map (demoteRow tp now (id q)) rs).
Proof. unfold demoteStep. apply rewritten_perm. Qed.

(** Whatever its outcome, a call leaves in the table, in some order, the
    old rows, each rewritten by one function that keeps identity and
    contact data and promotes nothing, and at most one new row holding
    the request. *)
Lemma rows_after_call (e p : option string) (d : Db)
  (out : Outcome ContactResponse) (d' : Db) :
  identifyContact e p d = (out, d') ->
  exists (f : Contact -> Contact) (extra : list Contact),
    Permutation (rows d') (map f (rows d) ++ extra)
    /\ (forall c, same_data c (f c) /\ not_promoted c (f c))
    /\ (List.length extra <= 1)%nat
    /\ (forall c, In c extra ->
          id c = nextId d /\ email c = e /\ phoneNumber c = p
          /\ deletedAt c = None).
Proof.
  intros H.
  assert (Hsame : forall c : Contact, same_data c c /\ not_promoted c c)
    by (intros c; unfold same_data, not_promoted; auto 10).
  assert (Hnone : forall c : Contact, In c [] ->
            id c = nextId d /\ email c = e /\ phoneNumber c = p
            /\ deletedAt c = None) by (intros c []).
  assert (Hnew : forall lp l c, In c [newRow e p lp l d] ->
            id c = nextId d /\ email c = e /\ phoneNumber c = p
            /\ deletedAt c = None).
  { intros lp l c [<-|[]]. cbn. auto. }
  assert (Hmerge : forall tp now ids c,
            same_data c (mergeRow tp now ids c)
            /\ not_promoted c (mergeRow tp now ids c)).
  { intros tp now ids c. split;
      [apply mergeRow_same_data | apply mergeRow_not_promoted]. }
  destruct out as [r|x].
  - destruct (completed_cases e p d r d' H)
      as [[_ [_ [Hrows _]]]
         | [tp [rest [_ [_ [[_ [_ [Hrows _]]] | [_ [_ [Hrows _]]]]]]]]].
    + exists (fun c => c), [newRow e p primary None d].
      rewrite Hrows, map_id. split; [reflexivity|].
      split; [exact Hsame|]. split; [cbn; lia | apply Hnew].
    + exists (mergeRow (id tp) (clock d) (map id rest)),
        [newRow e p secondary (Some (id tp)) d].
      rewrite Hrows. split.
      * apply Permutation_app_tail, merged_perm.
      * split; [apply Hmerge|]. split; [cbn; lia | apply Hnew].
    + exists (mergeRow (id tp) (clock d) (map id rest)), [].
      rewrite Hrows, app_nil_r. split; [apply merged_perm|].
      split; [apply Hmerge|]. split; [cbn; lia | exact Hnone].
  - destruct (failed_cases e p d x d' H)
      as [Hrows | [tp [rest [_ [k [Hrows | [q [_ Hrows]]]]]]]].
    + exists (fun c => c), []. rewrite Hrows, map_id, app_nil_r.
      split; [reflexivity|].
      split; [exact Hsame|]. split; [cbn; lia | exact Hnone].
    + exists (mergeRow (id tp) (clock d) (map id (firstn k rest))), [].
      rewrite Hrows, app_nil_r. split; [apply mergeRows_perm|].
      split; [apply Hmerge|]. split; [cbn; lia | exact Hnone].
    + exists (fun c => demoteRow (id tp) (clock d) (id q)
                         (mergeRow (id tp) (clock d)
                            (map id (firstn k rest)) c)), [].
      rewrite Hrows, app_nil_r. split.
      * rewrite demoteStep_perm, mergeRows_perm, map_map. reflexivity.
      * split.
        -- intros c. split.
           ++ eapply same_data_trans;
                [apply mergeRow_same_data | apply demoteRow_same_data].
           ++ intros Hs. apply demoteRow_not_promoted.
              now apply mergeRow_not_promoted.
        -- split; [cbn; lia | exact Hnone].
Qed.

Lemma Forall2_map_right {A : Type} (R : A -> A -> Prop) (f : A -> A)
  (l : list A) :
  (forall a, R a (f a)) -> Forall2 R l (map f l).
Proof. intros H. induction l; cbn; constructor; auto. Qed.

(** X1.  Whatever its outcome -- an answer, a [TypeError] or a failed
    round trip -- a call deletes no record and rewrites no contact data:
    the table afterwards holds, in whatever order the database returns
    them, one record for each old record, with the [id], [email],
    [phoneNumber], [createdAt] and [deletedAt] it had, and at most one new
    record, which has the next id of the sequence, holds the email and
    phone of the request, and is not deleted. *)
Theorem contact_data_is_kept (e p : option string) (d : Db)
  (out : Outcome ContactResponse) (d' : Db) :
  identifyContact e p d = (out, d') ->
  exists old new,
    Permutation (rows d') (old ++ new)
    /\ Forall2 same_data (rows d) old
    /\ (List.length new <= 1)%nat
    /\ forall c, In c new ->
         id c = nextId d /\ email c = e /\ phoneNumber c = p
         /\ deletedAt c = None.
Proof.
  intros H.
  destruct (rows_after_call e p d out d' H) as [f [extra [Hr [Hf [Hl Hn]]]]].
  exists (map f (rows d)), extra. split; [exact Hr|].
  split; [|split; assumption].
  apply Forall2_map_right. intros a. apply Hf.
Qed.

Lemma contact_data_is_kept_witness :
  exists old new,
    Permutation
      (rows (snd (identifyContact (Some "doc@hillvalley.edu"%string)
                    (Some "5550100"%string) db_two_cut))) (old ++ new)
    /\ Forall2 same_data (rows db_two_cut) old
    /\ (List.length new <= 1)%nat.
Proof.
  destruct (contact_data_is_kept (Some "doc@hillvalley.edu"%string)
              (Some "5550100"%string) db_two_cut (Throw StoreError)
              (snd (identifyContact (Some "doc@hillvalley.edu"%string)
                      (Some "5550100"%string) db_two_cut)) eq_refl)
    as [old [new [H1 [H2 [H3 _]]]]].
  exists old, new. auto.
Defined.

(** X2.  Whatever its outcome, a call never turns a secondary back into a
    primary: a record that was [secondary] is in the table afterwards,
    with its id and contact data, and still [secondary]. *)
Theorem secondary_stays_secondary (e p : option string) (d : Db)
  (out : Outcome ContactResponse) (d' : Db) :
  identifyContact e p d = (out, d') ->
  forall c,
    In c (rows d) -> linkPrecedence c = secondary ->
    exists c',
      In c' (rows d') /\ same_data c c' /\ linkPrecedence c' = secondary.
Proof.
  intros H c Hc Hs.
  destruct (rows_after_call e p d out d' H) as [f [extra [Hr [Hf _]]]].
  exists (f c). destruct (Hf c) as [Hd Hp]. split; [|split].
  - apply (Permutation_in _ (Permutation_sym Hr)).
    apply in_or_app. left. now apply in_map.
  - exact Hd.
  - now apply Hp.
Qed.

Lemma secondary_stays_secondary_witness :
  exists c',
    In c' (rows (snd (identifyContact (Some "doc@hillvalley.edu"%string)
                        (Some "5550100"%string) db_two)))
    /\ same_data
         (mkContact 3 (Some "5550199"%string) None (Some 2) secondary 30 30
            None) c'
    /\ linkPrecedence c' = secondary.
Proof.
  apply (secondary_stays_secondary (Some "doc@hillvalley.edu"%string)
           (Some "5550100"%string) db_two
           (fst (identifyContact (Some "doc@hillvalley.edu"%string)
                   (Some "5550100"%string) db_two))
           (snd (identifyContact (Some "doc@hillvalley.edu"%string)
                   (Some "5550100"%string) db_two))
           eq_refl
           (mkContact 3 (Some "5550199"%string) None (Some 2) secondary 30
              30 None));
    [right; right; now left | reflexivity].
Defined.

Lemma mergeRow_apart (tp now : Z) (rest : list Contact) (c : Contact) :
  (forall q, In q rest -> id c <> id q /\ linkedWhere (id q) c = false) ->
  mergeRow tp now (map id rest) c = c.
Proof.
  intros H. unfold mergeRow.
  destruct (includes_num (map id rest) (id c)) eqn:Ei.
  - apply includes_num_In, in_map_iff in Ei. destruct Ei as [q [E Hq]].
    destruct (H q Hq) as [Hne _]. congruence.
  - destruct (linkedToAny (map id rest) c) eqn:Ea; [exfalso|reflexivity].
    unfold linkedToAny in Ea. apply andb_true_iff in Ea.
    destruct Ea as [Hl Hin]. destruct (linkedId c) as [l|] eqn:El;
      [|discriminate].
    apply includes_num_In, in_map_iff in Hin. destruct Hin as [q [E Hq]].
    destruct (H q Hq) as [_ Hw]. unfold linkedWhere, live in *.
    rewrite El, Hl in Hw. cbn in Hw. rewrite <- E, Z.eqb_refl in Hw.
    discriminate.
Qed.

(** X3.  A call that completes leaves alone every record outside the
    groups it merges: a record that is none of the roots it demotes, and
    is not a non-deleted record linked to one of them, is in the table
    afterwards, unchanged in every column (where the database returns it
    among the others is not said). *)
Theorem other_records_untouched (e p : option string) (d : Db)
  (r : ContactResponse) (d' : Db) :
  identifyContact e p d = (Ok r, d') ->
  forall c,
    In c (rows d) ->
    (forall q, In q (tl (roots e p d)) ->
       id c <> id q /\ linkedWhere (id q) c = false) ->
    In c (rows d').
Proof.
  intros H c Hc Hout.
  assert (Hkept : forall tp rest, roots e p d = tp :: rest ->
                                  In c (merged tp rest d)).
  { intros tp rest Hroots. rewrite Hroots in Hout. cbn [tl] in Hout.
    apply merged_In. exists c. split; [assumption|].
    symmetry. now apply mergeRow_apart. }
  destruct (completed_cases e p d r d' H)
    as [[_ [_ [Hrows _]]]
       | [tp [rest [_ [Hroots [[_ [_ [Hrows _]]] | [_ [_ [Hrows _]]]]]]]]];
    rewrite Hrows.
  - apply in_or_app. now left.
  - apply in_or_app. left. now apply Hkept.
  - now apply Hkept.
Qed.

Lemma other_records_untouched_witness :
  In (mkContact 4 (Some "5550142"%string) None (Some 1) secondary 40 40
        None)
    (rows (snd (identifyContact (Some "doc@hillvalley.edu"%string)
                  (Some "5550100"%string) db_four))).
Proof.
  apply (other_records_untouched (Some "doc@hillvalley.edu"%string)
           (Some "5550100"%string) db_four
           (mkResponse 1 ["doc@hillvalley.edu"%string]
              ["5550142"%string; "5550100"%string; "5550199"%string]
              [4; 2; 3])
           (snd (identifyContact (Some "doc@hillvalley.edu"%string)
                   (Some "5550100"%string) db_four))
           eq_refl).
  - right; right; right; now left.
  - intros q [<-|[]]. split; [discriminate | reflexivity].
Defined.

(** X5.  Only a merge can leave a failed request half done: when the
    request resolves to at most one root, a call that fails -- at any
    round trip, or on the undefined true primary -- leaves the table
    exactly as it was. *)
Theorem failure_without_merge_writes_nothing (e p : option string)
  (d : Db) (x : Exn) (d' : Db) :
  identifyContact e p d = (Throw x, d') ->
  (List.length (roots e p d) <= 1)%nat ->
  rows d' = rows d.
Proof.
  intros H Hlen.
  destruct (failed_cases e p d x d' H)
    as [Hrows | [tp [rest [Hroots [k Hk]]]]]; [exact Hrows|].
  rewrite Hroots in Hlen. destruct rest as [|q rest]; [|cbn in Hlen; lia].
  rewrite firstn_nil in Hk. destruct Hk as [Hk | [q [Hq _]]].
  - exact Hk.
  - destruct k; discriminate Hq.
Qed.

Lemma failure_without_merge_writes_nothing_witness :
  rows (snd (identifyContact (Some "lorraine@hillvalley.edu"%string)
               (Some "5550142"%string) db_hill_cut))
  = rows db_hill_cut.
Proof.
  apply (failure_without_merge_writes_nothing
           (Some "lorraine@hillvalley.edu"%string) (Some "5550142"%string)
           db_hill_cut StoreError);
    [reflexivity | vm_compute; lia].
Defined.

(** ** The round trips of a call *)

Lemma no_match_no_root (e p : option string) (d : Db) :
  matching e p d = [] -> roots e p d = [].
Proof.
  intros Hm. destruct (roots e p d) as [|tp rest] eqn:Er; [reflexivity|].
  exfalso. exact (roots_matching e p d tp rest Er Hm).
Qed.

(** X4.  A call that completes makes these round trips, in this order:
    when nothing matches, one read and one insert; otherwise two reads,
    then one update and one bulk update for each root it demotes, then one
    more read, then one insert if the request brings new information.  So
    it reads at most three times and inserts at most once. *)
Theorem round_trips_of_a_call (e p : option string) (d : Db)
  (r : ContactResponse) (d' : Db) :
  identifyContact e p d = (Ok r, d') ->
  calls d'
  = calls d
    ++ match roots e p d with
       | [] => [FindMany; Create]
       | tp :: rest =>
           [FindMany; FindMany] ++ mergeCalls rest ++ [FindMany]
           ++ (if hasNewInfo e p tp (fetchedSecondaries tp rest d)
               then [Create] else [])
       end.
Proof.
  intros H. apply steady_identifyContact in H.
  assert (Hup : outage (up d) = None) by reflexivity.
  change (calls d') with (calls (up d')).
  destruct (matching e p d) as [|m ms] eqn:Em.
  - rewrite (no_match_no_root e p d Em).
    rewrite (identifyContact_no_match e p (up d) Hup Em) in H.
    injection H as _ _ _ _ Hc. cbn [up calls]. now rewrite <- Hc.
  - assert (Hne : matching e p (up d) <> []).
    { change (matching e p (up d)) with (matching e p d).
      rewrite Em. discriminate. }
    destruct (roots e p d) as [|tp rest] eqn:Er.
    + rewrite (identifyContact_no_root e p (up d) Hup Hne Er) in H.
      discriminate H.
    + rewrite (identifyContact_group e p (up d) tp rest Hup Hne Er) in H.
      cbv zeta in H.
      change (fetchedSecondaries tp rest (up d))
        with (fetchedSecondaries tp rest d) in H.
      destruct (hasNewInfo e p tp (fetchedSecondaries tp rest d));
        injection H as _ _ _ _ Hc; cbn [up calls]; rewrite <- Hc;
        cbn [calls up app]; rewrite <- ?app_assoc, ?app_nil_r;
        cbn [app]; rewrite <- ?app_assoc; reflexivity.
Qed.

Lemma round_trips_of_a_call_witness :
  calls (snd (identifyContact (Some "doc@hillvalley.edu"%string)
                (Some "5550100"%string) db_two))
  = [FindMany; FindMany; Update; UpdateMany; FindMany].
Proof.
  apply (round_trips_of_a_call (Some "doc@hillvalley.edu"%string)
           (Some "5550100"%string) db_two
           (mkResponse 1 ["doc@hillvalley.edu"%string]
              ["5550100"%string; "5550199"%string] [2; 3])).
  reflexivity.
Defined.

(** ** What the answer holds *)

Lemma skipSeen_In (vals : list (option string)) :
  forall seen x,
  In x (skipSeen seen vals)
  <-> ~ In x seen /\ x <> EmptyString /\ In (Some x) vals.
Proof.
  induction vals as [|[s|] vs IH]; intros seen x; cbn [skipSeen].
  - simpl. tauto.
  - destruct (truthy_str (Some s)) eqn:Et; cbn [andb].
    + destruct (includes_str seen s) eqn:Ei; cbn [negb].
      * rewrite IH. apply includes_str_In in Ei. simpl. split.
        -- tauto.
        -- intros [Hn [Hx [E|Hin]]]; [|tauto].
           injection E as ->. contradiction.
      * assert (Hs : ~ In s seen).
        { intros Hin. apply includes_str_In in Hin. congruence. }
        assert (Hse : s <> EmptyString) by (intros ->; discriminate Et).
        simpl. rewrite IH. simpl. split.
        -- intros [<-|[Hn [Hx Hin]]]; [auto|]. tauto.
        -- intros [Hn [Hx [E|Hin]]].
           ++ injection E as ->. now left.
           ++ destruct (String.eqb s x) eqn:Esx.
              ** apply String.eqb_eq in Esx. now left.
              ** apply String.eqb_neq in Esx. right. tauto.
    + rewrite IH. simpl. split; [tauto|].
      intros [Hn [Hx [E|Hin]]]; [|tauto]. injection E as ->.
      cbn in Et. apply negb_false_iff, String.eqb_eq in Et. contradiction.
  - rewrite IH. simpl. split; [tauto|].
    intros [Hn [Hx [E|Hin]]]; [discriminate|tauto].
Qed.

(** The list of one column holds exactly the non-empty values some record
    of the group carries. *)
Lemma listed_In (f : Contact -> option string) (prim : Contact)
  (secs : list Contact) (x : string) :
  In x (listed f prim secs)
  <-> x <> EmptyString /\ exists c, In c (prim :: secs) /\ f c = Some x.
Proof.
  unfold listed. rewrite skipSeen_In, in_map_iff. split.
  - intros [_ [Hx [c [E Hc]]]]. eauto.
  - intros [Hx [c [Hc E]]]. split; [intros []|]. eauto.
Qed.

(** X6.  In every answer the lists lose nothing: [emails] holds exactly
    the non-empty emails carried by the true primary or a materialized
    secondary, and [phoneNumbers] exactly their non-empty phone
    numbers. *)
Theorem response_lists_are_complete (e p : option string) (d : Db)
  (r : ContactResponse) (d' : Db) :
  identifyContact e p d = (Ok r, d') ->
  exists prim secs,
    materialized e p d = Some (prim, secs)
    /\ (forall x, In x (emails r)
          <-> x <> EmptyString
              /\ exists c, In c (prim :: secs) /\ email c = Some x)
    /\ (forall x, In x (phoneNumbers r)
          <-> x <> EmptyString
              /\ exists c, In c (prim :: secs) /\ phoneNumber c = Some x).
Proof.
  intros H. destruct (completed_materialized e p d r d' H)
    as [prim [secs [Hmat ->]]].
  exists prim, secs. split; [exact Hmat|].
  cbn [buildResponse emails phoneNumbers]. rewrite !collect_listed.
  split; intros x; apply listed_In.
Qed.

Lemma response_lists_are_complete_witness :
  exists prim secs,
    materialized (Some "doc@hillvalley.edu"%string)
      (Some "5550100"%string) db_two = Some (prim, secs)
    /\ (In "5550199"%string ["5550100"%string; "5550199"%string]
        <-> "5550199"%string <> EmptyString
            /\ exists c, In c (prim :: secs)
                         /\ phoneNumber c = Some "5550199"%string).
Proof.
  destruct (response_lists_are_complete
              (Some "doc@hillvalley.edu"%string) (Some "5550100"%string)
              db_two
              (mkResponse 1 ["doc@hillvalley.edu"%string]
                 ["5550100"%string; "5550199"%string] [2; 3])
              (snd (identifyContact (Some "doc@hillvalley.edu"%string)
                      (Some "5550100"%string) db_two)) eq_refl)
    as [prim [secs [H1 [_ H3]]]].
  exists prim, secs. split; [exact H1 | apply H3].
Defined.

Lemma isNew_false_In (f : Contact -> option string) (s : string)
  (group : list Contact) :
  s <> EmptyString ->
  isNew (Some s) (set_of_strs (truthy_values f group)) = false ->
  exists c, In c group /\ f c = Some s.
Proof.
  intros Hs H. unfold isNew in H. cbn [truthy_str] in H.
  apply String.eqb_neq in Hs. rewrite Hs in H. cbn in H.
  apply negb_false_iff, includes_str_In, set_of_strs_In,
    truthy_values_In in H.
  tauto.
Qed.

(** X7.  Every answer holds what the request gave: an email that is given
    (not null, not empty) is in [emails], and a phone number that is given
    is in [phoneNumbers] -- carried by the record the call created or by a
    record of the group it found. *)
Theorem response_holds_the_request (e p : option string) (d : Db)
  (r : ContactResponse) (d' : Db) :
  identifyContact e p d = (Ok r, d') ->
  (forall s, e = Some s -> s <> EmptyString -> In s (emails r))
  /\ (forall s, p = Some s -> s <> EmptyString -> In s (phoneNumbers r)).
Proof.
  intros H.
  assert (Hboth : exists prim secs,
            r = buildResponse prim secs
            /\ (forall s, e = Some s -> s <> EmptyString ->
                  exists c, In c (prim :: secs) /\ email c = Some s)
            /\ (forall s, p = Some s -> s <> EmptyString ->
                  exists c, In c (prim :: secs) /\ phoneNumber c = Some s)).
  { destruct (completed_cases e p d r d' H)
      as [[_ [Hr _]]
         | [tp [rest [_ [_ [[_ [Hr _]] | [Hn [Hr _]]]]]]]].
    - eexists. eexists. split; [exact Hr|].
      split; intros s -> _; eexists; (split; [now left|reflexivity]).
    - eexists. eexists. split; [exact Hr|].
      split; intros s -> _; eexists;
        (split; [right; apply in_or_app; right; now left | reflexivity]).
    - eexists. eexists. split; [exact Hr|].
      unfold hasNewInfo, groupEmails, groupPhones in Hn.
      apply orb_false_iff in Hn. destruct Hn as [Hne Hnp].
      split; intros s -> Hs.
      + exact (isNew_false_In email s _ Hs Hne).
      + exact (isNew_false_In phoneNumber s _ Hs Hnp). }
  destruct Hboth as [prim [secs [-> [He Hp]]]].
  cbn [buildResponse emails phoneNumbers]. rewrite !collect_listed.
  split; intros s Hs Hne; apply listed_In; auto.
Qed.

Lemma response_holds_the_request_witness :
  In "lorraine@hillvalley.edu"%string
    (emails (mkResponse 1
               ["lorraine@hillvalley.edu"%string;
                "mcfly@hillvalley.edu"%string]
               ["123456"%string; "5550142"%string] [2; 3]))
  /\ In "5550142"%string
       (phoneNumbers (mkResponse 1
                        ["lorraine@hillvalley.edu"%string;
                         "mcfly@hillvalley.edu"%string]
                        ["123456"%string; "5550142"%string] [2; 3])).
Proof.
  destruct (response_holds_the_request
              (Some "lorraine@hillvalley.edu"%string)
              (Some "5550142"%string) db_hill
              (mkResponse 1
                 ["lorraine@hillvalley.edu"%string;
                  "mcfly@hillvalley.edu"%string]
                 ["123456"%string; "5550142"%string] [2; 3])
              (snd (identifyContact (Some "lorraine@hillvalley.edu"%string)
                      (Some "5550142"%string) db_hill)) eq_refl)
    as [He Hp].
  split; [apply (He _ eq_refl) | apply (Hp _ eq_refl)]; discriminate.
Defined.

(** Every matched record, after the merge, is the true primary or is
    linked to it. *)
Lemma matched_joins_group (e p : option string) (d : Db) (tp : Contact)
  (rest : list Contact) (m : Contact) :
  well_formed d = true -> depth_one (rows d) = true ->
  roots e p d = tp :: rest ->
  In m (matching e p d) ->
  m = tp
  \/ linkedWhere (id tp)
       (mergeRow (id tp) (clock d) (map id rest) m) = true.
Proof.
  intros Hwf Hd Hroots Hm.
  destruct (well_formed_spec d Hwf) as [Hnd [Hids _]].
  pose proof (matching_In e p d m Hm) as [Hrow Hl].
  assert (Hlinked : forall c, live c = true -> linkedId c = Some (id tp) ->
                              linkedWhere (id tp) c = true).
  { intros c Hc E. unfold linkedWhere, live in *. rewrite E, Hc. cbn.
    now rewrite Z.eqb_refl. }
  assert (Hcase : m = tp
                  \/ linkedId (mergeRow (id tp) (clock d) (map id rest) m)
                     = Some (id tp));
    [|destruct Hcase as [->|E]; [now left|right; apply Hlinked;
        [now rewrite mergeRow_live | exact E]]].
  unfold mergeRow.
  destruct (includes_num (map id rest) (id m)) eqn:Ei; [now right|].
  destruct (linkedToAny (map id rest) m) eqn:Ea; [now right|].
  assert (Hroot : forall q, In q (rows d) -> live q = true ->
                  rootOf m = Some (id q) -> q = tp \/ In q rest).
  { intros q Hq Hlq Hr.
    assert (Hin : In q (roots e p d)) by (apply roots_In; eauto).
    rewrite Hroots in Hin. destruct Hin as [<-|Hin]; auto. }
  destruct (linkPrecedence m) eqn:Ep.
  - destruct (Hroot m Hrow Hl) as [->|Hin].
    + unfold rootOf. now rewrite Ep.
    + now left.
    + exfalso. apply (in_map id), includes_num_In in Hin. congruence.
  - rewrite depth_one_spec in Hd.
    destruct (Hd m Hrow Hl Ep) as [q [Hq [E [Hlq _]]]].
    assert (Hr : rootOf m = Some (id q)).
    { unfold rootOf. rewrite Ep, E. cbn. apply Hids in Hq.
      replace (id q =? 0) with false; [reflexivity|].
      symmetry. apply Z.eqb_neq. lia. }
    destruct (Hroot q Hq Hlq Hr) as [->|Hin]; [now right|].
    exfalso. apply (in_map id), includes_num_In in Hin.
    unfold linkedToAny in Ea. rewrite Hl, E in Ea. cbn in Ea. congruence.
Qed.

(** X8.  In a well-formed table with one level of indirection, an answer
    names every record the request matched: each record carrying the given
    email or phone is the primary of the answer or one of its
    [secondaryContactIds]. *)
Theorem matched_records_are_answered (e p : option string) (d : Db)
  (r : ContactResponse) (d' : Db) :
  well_formed d = true ->
  depth_one (rows d) = true ->
  identifyContact e p d = (Ok r, d') ->
  forall m, In m (matching e p d) ->
    id m = primaryContatctId r \/ In (id m) (secondaryContactIds r).
Proof.
  intros Hwf Hd H m Hm.
  pose proof (matching_In e p d m Hm) as [Hrow _].
  assert (Hres : exists tp rest secs,
            roots e p d = tp :: rest
            /\ primaryContatctId r = id tp
            /\ secondaryContactIds r
               = map id (fetchedSecondaries tp rest d) ++ secs).
  { destruct (completed_cases e p d r d' H)
      as [[Hnone _]
         | [tp [rest [_ [Hroots [[_ [-> _]] | [_ [-> _]]]]]]]].
    - rewrite Hnone in Hm. destruct Hm.
    - exists tp, rest, [nextId d]. split; [exact Hroots|].
      cbn. now rewrite map_app.
    - exists tp, rest, []. split; [exact Hroots|].
      cbn. now rewrite app_nil_r. }
  destruct Hres as [tp [rest [secs [Hroots [Hp Hs]]]]].
  rewrite Hp, Hs.
  destruct (matched_joins_group e p d tp rest m Hwf Hd Hroots Hm)
    as [->|Hlinked]; [now left|right].
  apply in_or_app. left.
  rewrite <- (mergeRow_id (id tp) (clock d) (map id rest) m).
  apply in_map. unfold fetchedSecondaries. apply filter_In.
  split; [|exact Hlinked]. apply merged_In. eauto.
Qed.

Lemma matched_records_are_answered_witness :
  2 = primaryContatctId
        (mkResponse 1 ["doc@hillvalley.edu"%string]
           ["5550100"%string; "5550199"%string] [2; 3])
  \/ In 2 (secondaryContactIds
             (mkResponse 1 ["doc@hillvalley.edu"%string]
                ["5550100"%string; "5550199"%string] [2; 3])).
Proof.
  apply (matched_records_are_answered (Some "doc@hillvalley.edu"%string)
           (Some "5550100"%string) db_two
           (mkResponse 1 ["doc@hillvalley.edu"%string]
              ["5550100"%string; "5550199"%string] [2; 3])
           (snd (identifyContact (Some "doc@hillvalley.edu"%string)
                   (Some "5550100"%string) db_two))
           eq_refl eq_refl eq_refl
           (mkContact 2 (Some "5550100"%string) None None primary 20 20
              None)).
  right. now left.
Defined.

(** ** The tables the service builds *)

Lemma mergeRow_shape (tp now : Z) (ids : list Z) (c : Contact) :
  (linkPrecedence c = primary -> linkedId c = None) ->
  linkPrecedence (mergeRow tp now ids c) = primary ->
  linkedId (mergeRow tp now ids c) = None.
Proof.
  intros Hc. unfold mergeRow.
  destruct (includes_num ids (id c)); [discriminate|].
  destruct (linkedToAny ids c) eqn:Ea; [|exact Hc].
  cbn. intros Hp. apply Hc in Hp. unfold linkedToAny in Ea.
  rewrite Hp, andb_false_r in Ea. discriminate.
Qed.

(** X9.  From an empty table, with the database up and nothing else
    writing to it, the service keeps its table sound through any sequence
    of requests: ids are unique and issued by the sequence, every
    [linkedId] names an issued id, every non-deleted secondary is linked to
    a non-deleted primary, no record is ever soft-deleted, and every
    primary has a null [linkedId]. *)
Theorem service_tables_are_sound (d : Db) :
  built d ->
  well_formed d = true
  /\ depth_one (rows d) = true
  /\ forallb live (rows d) = true
  /\ primaries_unlinked (rows d) = true.
Proof.
  intros Hb. destruct (built_invariant d Hb) as [_ [Hwf Hd]].
  split; [exact Hwf|]. split; [exact Hd|].
  assert (Hshape : forall c, In c (rows d) ->
            deletedAt c = None
            /\ (linkPrecedence c = primary -> linkedId c = None)).
  { clear Hwf Hd.
    induction Hb as [t rk | d t rk _ IH | d body resp d' Hb IH Hreq];
      [intros c [] | exact IH |].
    destruct (built_invariant d Hb) as [Hup _].
    destruct (identifyRouter_cases body d resp d' Hreq)
      as [->|[e [p [out [Hrun _]]]]]; [exact IH|].
    destruct (up_outcome e p d Hup) as [[r [d1 [E _]]] | [_ [_ E]]];
      rewrite E in Hrun; injection Hrun as _ <-; [|exact IH].
    intros c Hc.
    destruct (completed_cases e p d r d1 E)
      as [[_ [_ [Hrows _]]]
         | [tp [rest [_ [_ [[_ [_ [Hrows _]]] | [_ [_ [Hrows _]]]]]]]]];
      rewrite Hrows in Hc.
    - apply in_app_or in Hc. destruct Hc as [Hc|[<-|[]]];
        [now apply IH | cbn; auto].
    - apply in_app_or in Hc. destruct Hc as [Hc|[<-|[]]].
      + apply merged_In in Hc. destruct Hc as [c0 [Hc0 ->]].
        destruct (IH c0 Hc0) as [Hdel Hlink].
        destruct (mergeRow_columns (id tp) (clock d) (map id rest) c0)
          as [_ [_ ->]].
        split; [exact Hdel | now apply mergeRow_shape].
      + cbn. split; [reflexivity | discriminate].
    - apply merged_In in Hc. destruct Hc as [c0 [Hc0 ->]].
      destruct (IH c0 Hc0) as [Hdel Hlink].
      destruct (mergeRow_columns (id tp) (clock d) (map id rest) c0)
        as [_ [_ ->]].
      split; [exact Hdel | now apply mergeRow_shape]. }
  split.
  - apply forallb_forall. intros c Hc. unfold live.
    now rewrite (proj1 (Hshape c Hc)).
  - apply forallb_forall. intros c Hc. unfold is_primary.
    destruct (linkPrecedence c) eqn:Ep; [|reflexivity].
    now rewrite (proj2 (Hshape c Hc) Ep).
Qed.

Lemma service_tables_are_sound_witness :
  well_formed db_first = true
  /\ depth_one (rows db_first) = true
  /\ forallb live (rows db_first) = true
  /\ primaries_unlinked (rows db_first) = true.
Proof.
  apply (service_tables_are_sound db_first).
  apply (built_request (mkDb [] 1 0 [] None byPlace)
           (mkBody (JsString "doc@hillvalley.edu"%string) JsUndefined)
           (fst (identifyRouter
                   (mkBody (JsString "doc@hillvalley.edu"%string) JsUndefined)
                   (mkDb [] 1 0 [] None byPlace)))
           db_first (built_empty 0 byPlace)).
  reflexivity.
Defined.

Lemma stringOrNull_ok (v : JsValue) :
  stringifies v = true -> exists e, stringOrNull v = Ok e.
Proof.
  unfold stringifies, stringOrNull. destruct (toString v); [|discriminate].
  intros _. destruct (truthy_js v); eauto.
Qed.

(** X10.  On a table it built itself, with the database up, the service
    answers with status 200 every request in which an email or a phone is
    given and of whose fields [String] makes a string: it never fails on
    the undefined true primary, and the table it leaves is again one it
    built. *)
Theorem service_answers_on_its_tables (d : Db) (body : Body) :
  built d ->
  absent (body_email body) && absent (body_phoneNumber body) = false ->
  stringifies (body_email body) = true ->
  stringifies (body_phoneNumber body) = true ->
  exists r d',
    identifyRouter body d = (Status200 r, d') /\ built d'.
Proof.
  intros Hb Hbody Hse Hsp.
  assert (Hrun : exists r d', identifyRouter body d = (Status200 r, d')).
  { unfold identifyRouter. unfold absent in Hbody. rewrite Hbody.
    destruct (stringOrNull_ok _ Hse) as [e ->].
    destruct (stringOrNull_ok _ Hsp) as [p ->].
    destruct (built_answers d e p Hb) as [r [d1 E]]. rewrite E. eauto. }
  destruct Hrun as [r [d' E]]. exists r, d'. split; [exact E|].
  exact (built_request d body (Status200 r) d' Hb E).
Qed.

Lemma service_answers_on_its_tables_witness :
  exists r d',
    identifyRouter (mkBody JsNull (JsString "5550100"%string)) db_first
    = (Status200 r, d') /\ built d'.
Proof.
  apply (service_answers_on_its_tables db_first
           (mkBody JsNull (JsString "5550100"%string)));
    [|reflexivity|reflexivity|reflexivity].
  apply (built_request (mkDb [] 1 0 [] None byPlace)
           (mkBody (JsString "doc@hillvalley.edu"%string) JsUndefined)
           (fst (identifyRouter
                   (mkBody (JsString "doc@hillvalley.edu"%string) JsUndefined)
                   (mkDb [] 1 0 [] None byPlace)))
           db_first (built_empty 0 byPlace)).
  reflexivity.
Defined.

(** Without the last two hypotheses the answer may be 500: of an object
    with a property named [toString], [String] makes nothing; it throws,
    the handler catches, and the database is not asked. *)
Lemma string_throws_answers_500 :
  absent (body_email (mkBody (JsObject true) JsUndefined)) = false
  /\ identifyRouter (mkBody (JsObject true) JsUndefined) db_first
     = (Status500, db_first).
Proof. split; reflexivity. Qed.

Lemma primaries_unlinked_spec (rs : list Contact) (c : Contact) :
  primaries_unlinked rs = true -> In c rs ->
  linkPrecedence c = primary -> linkedId c = None.
Proof.
  unfold primaries_unlinked. rewrite forallb_forall. intros H Hc Hp.
  specialize (H c Hc). apply is_primary_true in Hp. rewrite Hp in H.
  cbn in H. now destruct (linkedId c).
Qed.

(** X11.  In a sound table (well formed, one level of indirection,
    primaries with a null [linkedId]) the ids of an answer are all
    different: the primary is not among [secondaryContactIds], and no
    secondary is listed twice. *)
Theorem answer_ids_are_distinct (e p : option string) (d : Db)
  (r : ContactResponse) (d' : Db) :
  well_formed d = true ->
  depth_one (rows d) = true ->
  primaries_unlinked (rows d) = true ->
  identifyContact e p d = (Ok r, d') ->
  NoDup (primaryContatctId r :: secondaryContactIds r).
Proof.
  intros Hwf Hd Hun H.
  destruct (well_formed_spec d Hwf) as [Hnd [Hids _]].
  assert (Hu : ids_unique d = true) by now apply nodup_num_NoDup.
  destruct (completed_cases e p d r d' H)
    as [[_ [-> _]] | [tp [rest [_ [Hroots Hcase]]]]].
  - cbn. constructor; [intros []|constructor].
  - assert (Htpin : In tp (roots e p d)) by (rewrite Hroots; now left).
    pose proof (roots_primary e p d tp Hu Hd Htpin) as Htpp.
    apply roots_In in Htpin. destruct Htpin as [Htprow _].
    pose proof (primaries_unlinked_spec _ tp Hun Htprow Htpp) as Htpl.
    pose proof (true_primary_apart e p d tp rest Hu Hroots) as Hapart.
    set (secs := fetchedSecondaries tp rest d).
    assert (Hsecs : NoDup (map id secs)).
    { apply NoDup_map_filter. now rewrite merged_ids. }
    assert (Hold : forall c, In c secs -> 0 < id c < nextId d).
    { intros c Hc. apply filter_In in Hc. destruct Hc as [Hc _].
      apply (in_map id) in Hc. rewrite merged_ids in Hc.
      apply in_map_iff in Hc. destruct Hc as [c0 [E Hc0]].
      apply Hids in Hc0. lia. }
    assert (Htp : ~ In (id tp) (map id secs)).
    { intros Hin. apply in_map_iff in Hin. destruct Hin as [c [E Hc]].
      apply filter_In in Hc. destruct Hc as [Hc Hw].
      apply merged_In in Hc. destruct Hc as [c0 [Hc0 ->]].
      rewrite mergeRow_id in E.
      rewrite (unique_by_id (rows d) c0 tp Hnd Hc0 Htprow E) in Hw.
      unfold mergeRow in Hw.
      replace (includes_num (map id rest) (id tp)) with false in Hw.
      - unfold linkedToAny in Hw. rewrite Htpl, andb_false_r in Hw.
        unfold linkedWhere in Hw. rewrite Htpl in Hw. discriminate.
      - symmetry. destruct (includes_num (map id rest) (id tp)) eqn:Ei;
          [|reflexivity].
        apply includes_num_In in Ei. contradiction. }
    destruct Hcase as [[_ [-> _]] | [_ [-> _]]];
      cbn [buildResponse primaryContatctId secondaryContactIds];
      fold secs.
    + rewrite map_app. cbn [map newRow id].
      constructor.
      * rewrite in_app_iff. intros [Hin|[E|[]]]; [contradiction|].
        apply Hids in Htprow. lia.
      * eapply Permutation_NoDup; [apply Permutation_cons_append|].
        constructor; [|exact Hsecs]. intros Hin.
        apply in_map_iff in Hin. destruct Hin as [c [E Hc]].
        apply Hold in Hc. lia.
    + constructor; assumption.
Qed.

Lemma answer_ids_are_distinct_witness :
  NoDup (primaryContatctId
           (mkResponse 1 ["doc@hillvalley.edu"%string]
              ["5550100"%string; "5550199"%string] [2; 3])
         :: secondaryContactIds
              (mkResponse 1 ["doc@hillvalley.edu"%string]
                 ["5550100"%string; "5550199"%string] [2; 3])).
Proof.
  apply (answer_ids_are_distinct (Some "doc@hillvalley.edu"%string)
           (Some "5550100"%string) db_two
           (mkResponse 1 ["doc@hillvalley.edu"%string]
              ["5550100"%string; "5550199"%string] [2; 3])
           (snd (identifyContact (Some "doc@hillvalley.edu"%string)
                   (Some "5550100"%string) db_two)));
    reflexivity.
Defined.

(** ** Asking twice *)

Lemma buildResponse_same_columns (a b : Contact) (secs : list Contact) :
  id a = id b -> email a = email b -> phoneNumber a = phoneNumber b ->
  buildResponse a secs = buildResponse b secs.
Proof.
  intros Hi He Hp. unfold buildResponse, collect. now rewrite Hi, He, Hp.
Qed.

Lemma links_issued_of_well_formed (d : Db) :
  well_formed d = true -> links_issued d = true.
Proof.
  unfold well_formed. intros H.
  apply andb_true_iff in H. destruct H as [H _].
  apply andb_true_iff in H. tauto.
Qed.

(** X12.  In a well-formed table, with the database up and at least one of
    email and phone given, a request that was answered gets the very same
    answer when it is repeated: same primary, same emails and phone
    numbers in the same order, same secondary ids. *)
Theorem repeat_gives_same_answer (e p : option string) (d : Db)
  (r1 : ContactResponse) (d1 : Db) :
  outage d = None ->
  well_formed d = true ->
  truthy_str e || truthy_str p = true ->
  identifyContact e p d = (Ok r1, d1) ->
  exists d2, identifyContact e p d1 = (Ok r1, d2).
Proof.
  intros Hup Hwf Hgiven H.
  destruct (matching e p d) as [|m ms] eqn:Em.
  - rewrite (identifyContact_no_match e p d Hup Em) in H.
    injection H as <- <-.
    set (c := newRow e p primary None d).
    match goal with
    | |- context [identifyContact e p ?x] => set (d1 := x)
    end.
    destruct (repeat_roots_fresh e p d d1 Hwf Hgiven Em eq_refl)
      as [HM1 HR1].
    assert (Hne : matching e p d1 <> []) by (rewrite HM1; discriminate).
    rewrite (identifyContact_group e p d1 c [] eq_refl Hne HR1). cbv zeta.
    rewrite (hasNewInfo_covered e p c _ c (or_introl eq_refl) eq_refl
               eq_refl).
    assert (Hsecs : fetchedSecondaries c [] d1 = []).
    { unfold fetchedSecondaries, merged.
      cbn [mergeRows fold_left rows d1]. rewrite filter_app.
      change (id c) with (nextId d).
      rewrite (no_link_to_next d (links_issued_of_well_formed d Hwf)).
      reflexivity. }
    rewrite Hsecs. eauto.
  - assert (Hne : matching e p d <> []) by (rewrite Em; discriminate).
    destruct (roots e p d) as [|tp rest] eqn:Er.
    + rewrite (identifyContact_no_root e p d Hup Hne Er) in H.
      discriminate H.
    + rewrite (identifyContact_group e p d tp rest Hup Hne Er) in H.
      cbv zeta in H.
      destruct (well_formed_spec d Hwf) as [_ [Hids _]].
      assert (Htpin : In tp (roots e p d)) by (rewrite Er; now left).
      apply roots_In in Htpin. destruct Htpin as [Htprow _].
      pose proof (Hids tp Htprow) as Htpid.
      set (g := mergeRow (id tp) (clock d) (map id rest)).
      assert (Hgid : id (g tp) = id tp) by apply mergeRow_id.
      destruct (mergeRow_columns (id tp) (clock d) (map id rest) tp)
        as [Hge [Hgp _]]. fold g in Hge, Hgp.
      destruct (hasNewInfo e p tp (fetchedSecondaries tp rest d)) eqn:En;
        injection H as <- <-.
      * set (c := newRow e p secondary (Some (id tp)) d).
        match goal with
        | |- context [identifyContact e p ?x] => set (d1 := x)
        end.
        assert (HR1 : roots e p d1 = [g tp]).
        { apply (repeat_roots e p d d1 tp rest [c] Hwf Er eq_refl);
            [|cbn; lia].
          intros x [<-|[]]. split; [reflexivity|]. split; [reflexivity|].
          unfold rootOf. cbn.
          replace (id tp =? 0) with false; [reflexivity|].
          symmetry. apply Z.eqb_neq. lia. }
        pose proof (roots_matching e p d1 (g tp) [] HR1) as Hne1.
        rewrite (identifyContact_group e p d1 (g tp) [] eq_refl Hne1 HR1).
        cbv zeta.
        assert (Hsecs : fetchedSecondaries (g tp) [] d1
                        = fetchedSecondaries tp rest d ++ [c]).
        { unfold fetchedSecondaries at 1. unfold merged at 1.
          cbn [mergeRows fold_left rows d1]. rewrite Hgid, filter_app.
          f_equal. cbn. unfold linkedWhere. cbn.
          now rewrite Z.eqb_refl. }
        rewrite Hsecs.
        assert (Hc : In c (g tp :: fetchedSecondaries tp rest d ++ [c]))
          by (right; apply in_or_app; right; now left).
        rewrite (hasNewInfo_covered e p (g tp) _ c Hc eq_refl eq_refl).
        rewrite (buildResponse_same_columns (g tp) tp _ Hgid Hge Hgp).
        eauto.
      * match goal with
        | |- context [identifyContact e p ?x] => set (d1 := x)
        end.
        assert (HR1 : roots e p d1 = [g tp]).
        { apply (repeat_roots e p d d1 tp rest [] Hwf Er);
            [cbn; now rewrite app_nil_r | intros x [] | cbn; lia]. }
        pose proof (roots_matching e p d1 (g tp) [] HR1) as Hne1.
        rewrite (identifyContact_group e p d1 (g tp) [] eq_refl Hne1 HR1).
        cbv zeta.
        assert (Hsecs : fetchedSecondaries (g tp) [] d1
                        = fetchedSecondaries tp rest d).
        { unfold fetchedSecondaries at 1. unfold merged at 1.
          cbn [mergeRows fold_left rows d1]. now rewrite Hgid. }
        rewrite Hsecs, (hasNewInfo_same_columns e p tp (g tp) _ Hge Hgp), En.
        rewrite (buildResponse_same_columns (g tp) tp _ Hgid Hge Hgp).
        eauto.
Qed.

Lemma repeat_gives_same_answer_witness :
  exists d2,
    identifyContact (Some "lorraine@hillvalley.edu"%string)
      (Some "5550142"%string)
      (snd (identifyContact (Some "lorraine@hillvalley.edu"%string)
              (Some "5550142"%string) db_hill))
    = (Ok (mkResponse 1
             ["lorraine@hillvalley.edu"%string;
              "mcfly@hillvalley.edu"%string]
             ["123456"%string; "5550142"%string] [2; 3]), d2).
Proof.
  apply (repeat_gives_same_answer
           (Some "lorraine@hillvalley.edu"%string) (Some "5550142"%string)
           db_hill); reflexivity.
Defined.

(** ** Counting the groups *)

Lemma is_primary_mergeRow (tp now : Z) (ids : list Z) (c : Contact) :
  is_primary (mergeRow tp now ids c)
  = is_primary c && negb (includes_num ids (id c)).
Proof.
  unfold mergeRow. destruct (includes_num ids (id c)).
  - cbn. now rewrite andb_false_r.
  - rewrite andb_true_r. destruct (linkedToAny ids c); reflexivity.
Qed.

Lemma filter_map_length {A : Type} (f : A -> bool) (g : A -> A)
  (l : list A) :
  List.length (filter f (map g l))
  = List.length (filter (fun a => f (g a)) l).
Proof.
  induction l as [|a l IH]; cbn; [reflexivity|].
  destruct (f (g a)); cbn; now rewrite IH.
Qed.

Lemma filter_split_length {A : Type} (a b : A -> bool) (l : list A) :
  (List.length (filter (fun x => a x && negb (b x)) l)
   + List.length (filter (fun x => a x && b x) l)
   = List.length (filter a l))%nat.
Proof.
  induction l as [|x l IH]; cbn; [reflexivity|].
  destruct (a x), (b x); cbn; lia.
Qed.

Lemma filter_perm {A : Type} (f : A -> bool) (l l' : list A) :
  Permutation l l' -> Permutation (filter f l) (filter f l').
Proof.
  induction 1 as [|x l l' _ IH|x y l|l l' l'' _ IH1 _ IH2]; cbn.
  - constructor.
  - destruct (f x); [now constructor | assumption].
  - destruct (f x), (f y); try reflexivity. apply perm_swap.
  - now transitivity (filter f l').
Qed.

(** In a table with unique ids and one level of indirection, the
    primaries whose id is among the demoted roots' ids are those roots. *)
Lemma demoted_are_the_roots (e p : option string) (d : Db) (tp : Contact)
  (rest : list Contact) :
  ids_unique d = true -> depth_one (rows d) = true ->
  roots e p d = tp :: rest ->
  List.length
    (filter (fun c => is_primary c && includes_num (map id rest) (id c))
       (rows d))
  = List.length rest.
Proof.
  intros Hu Hd Hroots. apply Permutation_length.
  pose proof Hu as Hnd. apply nodup_num_NoDup in Hnd.
  pose proof (roots_NoDup e p d Hu) as Hrn. rewrite Hroots in Hrn.
  cbn [map] in Hrn. apply NoDup_cons_iff in Hrn. destruct Hrn as [_ Hrn].
  assert (Hsub : forall q, In q rest ->
                   In q (rows d) /\ linkPrecedence q = primary).
  { intros q Hq.
    assert (Hin : In q (roots e p d)) by (rewrite Hroots; now right).
    split; [apply roots_In in Hin; tauto|].
    exact (roots_primary e p d q Hu Hd Hin). }
  apply NoDup_Permutation.
  - apply NoDup_filter. exact (NoDup_map_inv id _ Hnd).
  - exact (NoDup_map_inv id _ Hrn).
  - intros c. rewrite filter_In, andb_true_iff, includes_num_In,
      is_primary_true, in_map_iff. split.
    + intros [Hc [_ [q [E Hq]]]].
      destruct (Hsub q Hq) as [Hqrow _].
      now rewrite (unique_by_id (rows d) c q Hnd Hc Hqrow (eq_sym E)).
    + intros Hc. destruct (Hsub c Hc) as [Hrow Hp]. eauto.
Qed.

(** X13.  In a table with unique ids and one level of indirection, a call
    that completes changes the number of primaries in exactly one of two
    ways: a request that matches nothing adds one primary; any other
    request removes one primary for each root beyond the first that it
    resolves, and adds none. *)
Theorem primaries_after_a_call (e p : option string) (d : Db)
  (r : ContactResponse) (d' : Db) :
  ids_unique d = true ->
  depth_one (rows d) = true ->
  identifyContact e p d = (Ok r, d') ->
  (List.length (filter is_primary (rows d'))
   + List.length (tl (roots e p d))
   = List.length (filter is_primary (rows d))
     + match matching e p d with [] => 1 | _ :: _ => 0 end)%nat.
Proof.
  intros Hu Hd H.
  assert (Hmerged : forall tp rest, roots e p d = tp :: rest ->
            (List.length (filter is_primary (merged tp rest d))
             + List.length rest
             = List.length (filter is_primary (rows d)))%nat).
  { intros tp rest Hroots.
    rewrite (Permutation_length
               (filter_perm is_primary _ _ (merged_perm tp rest d))).
    rewrite filter_map_length.
    rewrite (filter_ext _ (fun c => is_primary c
               && negb (includes_num (map id rest) (id c))))
      by (intros c; apply is_primary_mergeRow).
    rewrite <- (demoted_are_the_roots e p d tp rest Hu Hd Hroots).
    apply filter_split_length. }
  destruct (completed_cases e p d r d' H)
    as [[Hm [_ [Hrows _]]]
       | [tp [rest [Hm [Hroots [[_ [_ [Hrows _]]] | [_ [_ [Hrows _]]]]]]]]];
    rewrite Hrows.
  - rewrite Hm, (no_match_no_root e p d Hm), filter_app, length_app.
    cbn. lia.
  - destruct (matching e p d); [congruence|]. rewrite Hroots. cbn [tl].
    rewrite filter_app, length_app. cbn.
    pose proof (Hmerged tp rest Hroots). lia.
  - destruct (matching e p d); [congruence|]. rewrite Hroots. cbn [tl].
    pose proof (Hmerged tp rest Hroots). lia.
Qed.

Lemma primaries_after_a_call_witness :
  (List.length
     (filter is_primary
        (rows (snd (identifyContact (Some "doc@hillvalley.edu"%string)
                      (Some "5550100"%string) db_two))))
   + 1 = 2 + 0)%nat.
Proof.
  apply (primaries_after_a_call (Some "doc@hillvalley.edu"%string)
           (Some "5550100"%string) db_two
           (mkResponse 1 ["doc@hillvalley.edu"%string]
              ["5550100"%string; "5550199"%string] [2; 3])
           (snd (identifyContact (Some "doc@hillvalley.edu"%string)
                   (Some "5550100"%string) db_two)));
    reflexivity.
Defined.

(** ** What the route handler lets into the table *)

(** X14.  Every record in a table the service built, through its route
    handler alone, holds an email or a phone number that is not null: the
    handler refuses requests with nothing given, and no call rewrites the
    email or phone of a record.  (The value held may be the empty string:
    see [db_array].) *)
Theorem records_hold_contact_data (d : Db) :
  built d ->
  forall c, In c (rows d) -> email c <> None \/ phoneNumber c <> None.
Proof.
  induction 1 as [t rk | d t rk _ IH | d body resp d' _ IH Hreq];
    [intros c [] | exact IH |].
  destruct (identifyRouter_cases body d resp d' Hreq)
    as [->|[e [p [out [Hrun [Hgiven _]]]]]]; [exact IH|].
  destruct (rows_after_call e p d out d' Hrun)
    as [f [extra [Hrows [Hf [_ Hnew]]]]].
  intros c Hc. apply (Permutation_in _ Hrows) in Hc.
  apply in_app_or in Hc. destruct Hc as [Hc|Hc].
  - apply in_map_iff in Hc. destruct Hc as [c0 [<- Hc0]].
    destruct (Hf c0) as [[_ [He [Hp _]]] _]. rewrite <- He, <- Hp.
    now apply IH.
  - destruct (Hnew c Hc) as [_ [He [Hp _]]]. now rewrite He, Hp.
Qed.

Lemma records_hold_contact_data_witness :
  email (mkContact 1 (Some "5550100"%string) (Some EmptyString) None
           primary 0 0 None) <> None
  \/ phoneNumber
       (mkContact 1 (Some "5550100"%string) (Some EmptyString) None primary
          0 0 None) <> None.
Proof.
  apply (records_hold_contact_data db_array).
  - apply (built_request (mkDb [] 1 0 [] None byPlace)
             (mkBody (JsArray []) (JsString "5550100"%string))
             (fst (identifyRouter
                     (mkBody (JsArray []) (JsString "5550100"%string))
                     (mkDb [] 1 0 [] None byPlace)))
             db_array (built_empty 0 byPlace)).
    reflexivity.
  - vm_compute. now left.
Defined.
